(** * deeplib.tensor: a shallow embedding of the reverse-mode autodiff engine

    The development follows [src/deeplib/tensor.py].

    - Part I is the model: the scalars and the dense-array kernels the
      engine calls (NumPy is an external library; only the operations
      [tensor.py] uses are described), the object store holding the
      [Tensor] and [NoGrad] instances, the operators, the captured
      [_backward] closures as tagged variants, and [Tensor.backward].
    - Part II holds the lemmas and the theorems about that model.

    Modelled: [NoGrad], [Tensor.__init__], [zero_grad], [backward],
    [__mul__], [__rmul__], [__neg__], [__truediv__], [__matmul__],
    [__pow__], [max], [sum], and the [__add__] family over a model of
    [deeplib.add].  Not modelled: [exp], [log], [gather], [__getitem__],
    [__gt__], [mean], [var], [sqrt], [normal_], [__repr__], a tuple of axes
    as [dim], and [dtype].

    Conventions.  A Python object is an index into a store, so that two
    names bound to the same tensor alias each other.  A computation is a
    function from the interpreter state to an outcome and the state reached;
    an exception keeps every mutation performed before it was raised.  The
    element type of an array is a parameter: nothing in the engine depends
    on it, and the concrete runs instantiate it with integers, on which the
    float32 kernels are exact for the small values used. *)

From stdpp Require Import base option list numbers sets gmap strings.
From Stdlib Require Import ZArith Lia.

#[global] Set Warnings "-clear-no-such-hyp".

(* ===================================================================== *)
(** * Part I: the model *)
(* ===================================================================== *)

(** ** Exceptions and outcomes *)

Inductive exn :=
  | RuntimeError      (* raised by [Tensor.backward] itself *)
  | ValueError        (* NumPy: operands could not be broadcast, matmul mismatch *)
  | AxisError         (* NumPy: axis out of bounds *)
  | TypeError         (* arithmetic on [None] *)
  | AssertionError    (* a failed [assert] *)
  | AttributeError    (* reading an attribute that was never set *)
  | RecursionError    (* the interpreter's recursion limit *)
  | NoSuchObject.     (* a dangling reference; unreachable from Python *)

Inductive result (A : Type) :=
  | Ok (a : A)
  | Raise (e : exn).
Arguments Ok {A} a.
Arguments Raise {A} e.

#[export] Instance exn_eq_dec : EqDecision exn.
Proof. solve_decision. Defined.

#[export] Instance result_ret : MRet result := λ A a, Ok a.
#[export] Instance result_bind : MBind result := λ A B f m,
  match m with Ok a => f a | Raise e => Raise e end.
#[export] Instance result_fmap : FMap result := λ A B f m,
  match m with Ok a => Ok (f a) | Raise e => Raise e end.

(** ** Scalars

    The element operations of the array library, as an interface.  [of_Z]
    is the conversion of a Python integer literal ([0] and [1] for
    [zeros_like] and [ones_like], [-1] in [__neg__] and [__truediv__]). *)

Class Scalar (F : Type) := {
  of_Z : Z → F;
  sadd : F → F → F;
  smul : F → F → F;
  spow : F → F → F;
  smax : F → F → F;
  seqb : F → F → bool;
}.

Definition szero `{Scalar F} : F := of_Z 0.
Definition sone `{Scalar F} : F := of_Z 1.
Definition of_bool `{Scalar F} (b : bool) : F := if b then sone else szero.

(** Integer scalars.  A negative exponent is the integer quotient of the
    reciprocal, which is the exact value only at [1] and [-1]. *)
#[export] Instance Z_scalar : Scalar Z := {|
  of_Z := id;
  sadd := Z.add;
  smul := Z.mul;
  spow := λ x e, if (e <? 0)%Z then (1 `div` x ^ (- e))%Z else (x ^ e)%Z;
  smax := Z.max;
  seqb := Z.eqb;
|}.

(** The behaviour of [==] on arrays whose shapes do not broadcast changed
    between NumPy releases: before 1.25 the comparison evaluates to the
    Python value [False] (with a warning), since 1.25 it raises.  Both are
    covered by this switch. *)
Class NumpyCompat := legacy_eq : bool.

(** ** Dense arrays *)

Module np.
Section ndarray.
Context {F : Type} `{Scalar F}.

(** An array is a shape and a row-major buffer. *)
Record ndarray := mk { shape : list nat; buf : list F }.

Definition ndim (a : ndarray) : nat := length (shape a).
Definition size_of (sh : list nat) : nat := foldr Nat.mul 1 sh.
Definition size (a : ndarray) : nat := size_of (shape a).
Definition wf (a : ndarray) : Prop := length (buf a) = size_of (shape a).

(** All the multi-indices of a shape, in row-major order. *)
Fixpoint indices (sh : list nat) : list (list nat) :=
  match sh with
  | [] => [[]]
  | n :: sh' => concat ((λ i, (i ::.) <$> indices sh') <$> seq 0 n)
  end.

Fixpoint offset (sh idx : list nat) : nat :=
  match sh, idx with
  | n :: sh', i :: idx' => i * size_of sh' + offset sh' idx'
  | _, _ => 0
  end.

Definition get (a : ndarray) (idx : list nat) : F :=
  nth (offset (shape a) idx) (buf a) szero.

Definition build (sh : list nat) (f : list nat → F) : ndarray :=
  mk sh (f <$> indices sh).

Definition in_bounds (sh idx : list nat) : Prop := Forall2 (λ i n, i < n) idx sh.

(** [np.array(c)] for a Python number [c]: a 0-dimensional array. *)
Definition scalar (c : F) : ndarray := mk [] [c].

Definition zeros_like (a : ndarray) : ndarray := build (shape a) (λ _, szero).
Definition ones_like (a : ndarray) : ndarray := build (shape a) (λ _, sone).

(** *** Broadcasting *)

Definition bdim (a b : nat) : option nat :=
  if decide (a = b) then Some a
  else if decide (a = 1) then Some b
  else if decide (b = 1) then Some a
  else None.

(** Shapes are aligned on their trailing dimension: the recursion runs on
    the reversed shapes. *)
Fixpoint bshape_rev (r1 r2 : list nat) : option (list nat) :=
  match r1, r2 with
  | [], r => Some r
  | r, [] => Some r
  | a :: r1', b :: r2' =>
      d ← bdim a b; r ← bshape_rev r1' r2'; Some (d :: r)
  end.

Definition broadcast_shapes (s1 s2 : list nat) : option (list nat) :=
  reverse <$> bshape_rev (reverse s1) (reverse s2).

(** The index of an operand of shape [sh] read at index [idx] of the
    broadcast result: the leading extra positions are dropped, and a
    dimension of size 1 is read at 0. *)
Definition bindex (sh idx : list nat) : list nat :=
  zip_with (λ n i, if decide (n = 1) then 0 else i)
           sh (drop (length idx - length sh) idx).

Definition map2 (op : F → F → F) (a b : ndarray) : result ndarray :=
  match broadcast_shapes (shape a) (shape b) with
  | Some sh =>
      Ok (build sh (λ idx, op (get a (bindex (shape a) idx))
                              (get b (bindex (shape b) idx))))
  | None => Raise ValueError
  end.

Definition add : ndarray → ndarray → result ndarray := map2 sadd.
Definition multiply : ndarray → ndarray → result ndarray := map2 smul.
Definition power : ndarray → ndarray → result ndarray := map2 spow.

(** [a == b] *)
Definition equal `{NumpyCompat} (a b : ndarray) : result ndarray :=
  match broadcast_shapes (shape a) (shape b) with
  | Some _ => map2 (λ x y, of_bool (seqb x y)) a b
  | None => if legacy_eq then Ok (scalar (of_bool false)) else Raise ValueError
  end.

(** [a += b] on arrays: the result must have the shape of [a]. *)
Definition iadd (a b : ndarray) : result ndarray :=
  match broadcast_shapes (shape a) (shape b) with
  | Some sh => if decide (sh = shape a) then add a b else Raise ValueError
  | None => Raise ValueError
  end.

(** [np.broadcast_to(a, sh)] *)
Definition broadcast_to (a : ndarray) (sh : list nat) : result ndarray :=
  match broadcast_shapes (shape a) sh with
  | Some sh' =>
      if decide (sh' = sh) then Ok (build sh (λ idx, get a (bindex (shape a) idx)))
      else Raise ValueError
  | None => Raise ValueError
  end.

(** *** Axes and reductions *)

Definition normalize_axis (n : nat) (axis : Z) : result nat :=
  if decide (- Z.of_nat n ≤ axis < Z.of_nat n)%Z
  then Ok (Z.to_nat (if decide (axis < 0)%Z then axis + Z.of_nat n else axis)%Z)
  else Raise AxisError.

(** [np.expand_dims(a, axis)]: the axis is normalized against the rank of
    the result. *)
Definition expand_dims (a : ndarray) (axis : Z) : result ndarray :=
  k ← normalize_axis (S (ndim a)) axis;
  Ok (mk (take k (shape a) ++ 1 :: drop k (shape a)) (buf a)).

(** The elements are combined from the first one on; the combining order
    NumPy picks for floating-point data is not modelled. *)
Definition sum_list (l : list F) : F :=
  match l with [] => szero | x :: l' => foldl sadd x l' end.
Definition max_list (l : list F) : F :=
  match l with [] => szero | x :: l' => foldl smax x l' end.

(** Reduction of axis [k] (already normalized) with [f]. *)
Definition reduce_axis (f : list F → F) (k : nat) (keepdims : bool)
    (a : ndarray) : ndarray :=
  let n := default 0 (shape a !! k) in
  if keepdims
  then build (<[k:=1]> (shape a))
             (λ idx, f ((λ j, get a (<[k:=j]> idx)) <$> seq 0 n))
  else build (delete k (shape a))
             (λ idx, f ((λ j, get a (take k idx ++ j :: drop k idx)) <$> seq 0 n)).

(** Reduction of every axis ([axis=None]). *)
Definition reduce_all (f : list F → F) (keepdims : bool) (a : ndarray) : ndarray :=
  mk (if keepdims then replicate (ndim a) 1 else []) [f (buf a)].

(** [np.sum(a, axis=dim, keepdims=keepdims)] *)
Definition sum (a : ndarray) (dim : option Z) (keepdims : bool) : result ndarray :=
  match dim with
  | None => Ok (reduce_all sum_list keepdims a)
  | Some axis =>
      k ← normalize_axis (ndim a) axis; Ok (reduce_axis sum_list k keepdims a)
  end.

(** [np.max(a, axis=dim, keepdims=keepdims)]: maximum has no identity, a
    reduced axis of length zero is an error. *)
Definition max (a : ndarray) (dim : option Z) (keepdims : bool) : result ndarray :=
  match dim with
  | None =>
      if decide (0 ∈ shape a) then Raise ValueError
      else Ok (reduce_all max_list keepdims a)
  | Some axis =>
      k ← normalize_axis (ndim a) axis;
      if decide (shape a !! k = Some 0) then Raise ValueError
      else Ok (reduce_axis max_list k keepdims a)
  end.

(** *** Matrix product *)

(** [a.T] reverses the axes. *)
Definition T (a : ndarray) : ndarray :=
  build (reverse (shape a)) (λ idx, get a (reverse idx)).

(** [a @ b]: a 0-dimensional operand is refused; a 1-dimensional operand
    is promoted to a matrix and the added dimension removed afterwards;
    the leading (batch) dimensions broadcast. *)
Definition matmul (a b : ndarray) : result ndarray :=
  if decide (ndim a = 0 ∨ ndim b = 0) then Raise ValueError else
  let sa := if decide (ndim a = 1) then 1 :: shape a else shape a in
  let sb := if decide (ndim b = 1) then shape b ++ [1] else shape b in
  let a' := mk sa (buf a) in
  let b' := mk sb (buf b) in
  let ba := take (length sa - 2) sa in
  let bb := take (length sb - 2) sb in
  match drop (length sa - 2) sa, drop (length sb - 2) sb with
  | [n; k], [k'; m] =>
      if decide (k = k') then
        match broadcast_shapes ba bb with
        | Some batch =>
            let nb := length batch in
            let out := build (batch ++ [n; m]) (λ idx,
              let bi := take nb idx in
              let i := default 0 (idx !! nb) in
              let j := default 0 (idx !! S nb) in
              sum_list ((λ l, smul (get a' (bindex ba bi ++ [i; l]))
                                   (get b' (bindex bb bi ++ [l; j]))) <$> seq 0 k)) in
            Ok (mk (batch ++ (if decide (ndim a = 1) then [] else [n])
                          ++ (if decide (ndim b = 1) then [] else [m]))
                   (buf out))
        | None => Raise ValueError
        end
      else Raise ValueError
  | _, _ => Raise ValueError
  end.

End ndarray.
Arguments ndarray F : clear implicits.
End np.

(** ** The object store *)

(** A reference to a [Tensor] is its index in the store, in order of
    construction. *)
Abbreviation ref := nat.

(** What an operator may receive as its right operand: a Python number, an
    array (or anything [np.array] turns into one), or a tensor. *)
Inductive pyobj (F : Type) :=
  | PyNum (c : F)
  | PyArray (a : np.ndarray F)
  | PyTensor (r : ref).
Arguments PyNum {F} c.
Arguments PyArray {F} a.
Arguments PyTensor {F} r.

(** The [_backward] closures, one variant for each [def _backward] of the
    source, with the variables it captures. *)
Inductive closure (F : Type) :=
  | BNone                                          (* [lambda: None] *)
  | BMul (self other out : ref)                    (* in [__mul__] *)
  | BMatmul (self other out : ref)                 (* in [__matmul__] *)
  | BPow (self out : ref) (other : F)              (* in [__pow__] *)
  | BMax (self out : ref)                          (* in [max] *)
  | BSum (self out : ref) (dim : option Z) (keepdims : bool)  (* in [sum] *)
  | BAdd (self other out : ref).                   (* in [deeplib.add] *)
Arguments BNone {F}.
Arguments BMul {F} self other out.
Arguments BMatmul {F} self other out.
Arguments BPow {F} self out other.
Arguments BMax {F} self out.
Arguments BSum {F} self out dim keepdims.
Arguments BAdd {F} self other out.

(** The attributes [Tensor.__init__] sets ([dtype] is not modelled). *)
Record Tensor (F : Type) := mkTensor {
  data : np.ndarray F;
  shape : list nat;
  requires_grad : bool;
  grad : option (np.ndarray F);
  _backward : closure F;
  _children : list ref;
}.
Arguments mkTensor {F}.
Arguments data {F} t.
Arguments shape {F} t.
Arguments requires_grad {F} t.
Arguments grad {F} t.
Arguments _backward {F} t.
Arguments _children {F} t.

(** An instance of [NoGrad]: [prev] is unset until [__enter__] runs. *)
Record NoGrad := mkNoGrad { prev : option bool }.

(** The interpreter state: the tensors, the class attribute
    [NoGrad._enabled] ([True] while gradient tracking is switched off), and
    the [NoGrad] instances. *)
Record State (F : Type) := mkState {
  heap : list (Tensor F);
  NoGrad_enabled : bool;
  guards : list NoGrad;
}.
Arguments mkState {F}.
Arguments heap {F} s.
Arguments NoGrad_enabled {F} s.
Arguments guards {F} s.

Definition set_grad {F} (g : option (np.ndarray F)) (t : Tensor F) : Tensor F :=
  mkTensor (data t) (shape t) (requires_grad t) g (_backward t) (_children t).
Definition set_backward {F} (c : closure F) (t : Tensor F) : Tensor F :=
  mkTensor (data t) (shape t) (requires_grad t) (grad t) c (_children t).
Definition set_heap {F} (h : list (Tensor F)) (s : State F) : State F :=
  mkState h (NoGrad_enabled s) (guards s).

(** ** Computations *)

Definition M (F A : Type) : Type := State F → result A * State F.

Definition ret {F A} (a : A) : M F A := λ s, (Ok a, s).
Definition raise {F A} (e : exn) : M F A := λ s, (Raise e, s).
Definition bind {F A B} (m : M F A) (k : A → M F B) : M F B := λ s,
  match m s with
  | (Ok a, s') => k a s'
  | (Raise e, s') => (Raise e, s')
  end.
Definition lift {F A} (r : result A) : M F A := λ s, (r, s).

Declare Scope py_scope.
Delimit Scope py_scope with py.
Notation "x <- m ;; k" := (bind m (λ x, k))
  (at level 100, m at next level, right associativity) : py_scope.
Notation "m ;; k" := (bind m (λ _, k))
  (at level 100, right associativity) : py_scope.
Open Scope py_scope.

Section engine.
Context {F : Type} `{Scalar F} `{NumpyCompat}.
Implicit Types (s : State F) (t : Tensor F) (r self other out : ref).
Local Abbreviation ndarray := (np.ndarray F).

(** Reading and updating the attributes of an object. *)
Definition load r : M F (Tensor F) := λ s,
  match heap s !! r with
  | Some t => (Ok t, s)
  | None => (Raise NoSuchObject, s)
  end.

Definition update r (f : Tensor F → Tensor F) : M F unit := λ s,
  match heap s !! r with
  | Some t => (Ok (), set_heap (<[r := f t]> (heap s)) s)
  | None => (Raise NoSuchObject, s)
  end.

(** An arithmetic operand that may be [None]: [*] and [+=] refuse [None]
    with a [TypeError]; [@] turns it into a 0-dimensional array, which it
    refuses with a [ValueError]. *)
Definition not_None (g : option ndarray) : M F ndarray :=
  match g with Some a => ret a | None => raise TypeError end.
Definition matmul_operand (g : option ndarray) : M F ndarray :=
  match g with Some a => ret a | None => raise ValueError end.

(** *** [class NoGrad] *)

(** [no_grad()] *)
Definition no_grad : M F nat := λ s,
  (Ok (length (guards s)),
   mkState (heap s) (NoGrad_enabled s) (guards s ++ [mkNoGrad None])).

Definition __enter__ (self : nat) : M F unit := λ s,
  match guards s !! self with
  | Some _ =>
      (Ok (), mkState (heap s) true
                      (<[self := mkNoGrad (Some (NoGrad_enabled s))]> (guards s)))
  | None => (Raise NoSuchObject, s)
  end.

Definition __exit__ (self : nat) : M F unit := λ s,
  match guards s !! self with
  | Some (mkNoGrad (Some p)) => (Ok (), mkState (heap s) p (guards s))
  | Some (mkNoGrad None) => (Raise AttributeError, s)
  | None => (Raise NoSuchObject, s)
  end.

(** [with no_grad(): body]: [__exit__] runs whether or not the body
    raises, and an exception of the body propagates. *)
Definition with_no_grad {A} (body : M F A) : M F A :=
  g <- no_grad;;
  __enter__ g;;
  λ s, match body s with
       | (Ok a, s') => (__exit__ g;; ret a) s'
       | (Raise e, s') => (__exit__ g;; raise e) s'
       end.

(** *** [Tensor.__init__]

    [data] is already an array here; [set(_children)] keeps one
    occurrence of each child. *)
Definition __init__ (data : ndarray) (_children : list ref)
    (requires_grad : bool) : M F ref := λ s,
  let rg := requires_grad && negb (NoGrad_enabled s) in
  let self := mkTensor data (np.shape data) rg
                (if rg then Some (np.zeros_like data) else None)
                BNone (remove_dups _children) in
  (Ok (length (heap s)), set_heap (heap s ++ [self]) s).

Definition zero_grad self : M F unit :=
  update self (λ t, match grad t with
                    | Some g => set_grad (Some (np.zeros_like g)) t
                    | None => t
                    end).

(** [other if isinstance(other, Tensor) else Tensor(other, requires_grad=False)] *)
Definition as_tensor (other : pyobj F) : M F ref :=
  match other with
  | PyTensor r => ret r
  | PyNum c => __init__ (np.scalar c) [] false
  | PyArray a => __init__ a [] false
  end.

(** *** The operators *)

Definition __mul__ self (other : pyobj F) : M F ref :=
  other <- as_tensor other;;
  ts <- load self;;
  to <- load other;;
  let requires_grad := requires_grad ts || requires_grad to in
  d <- lift (np.multiply (data ts) (data to));;
  out <- __init__ d [self; other] requires_grad;;
  update out (set_backward (BMul self other out));;
  ret out.

Definition __rmul__ self (other : pyobj F) : M F ref := __mul__ self other.

Definition __neg__ self : M F ref := __mul__ self (PyNum (of_Z (-1))).

(** [other.requires_grad] needs [other] to be a tensor. *)
Definition __matmul__ self (other : pyobj F) : M F ref :=
  match other with
  | PyTensor other =>
      ts <- load self;;
      to <- load other;;
      let requires_grad := requires_grad ts || requires_grad to in
      d <- lift (np.matmul (data ts) (data to));;
      out <- __init__ d [self; other] requires_grad;;
      update out (set_backward (BMatmul self other out));;
      ret out
  | _ => raise AttributeError
  end.

Definition __pow__ self (other : pyobj F) : M F ref :=
  match other with
  | PyNum c =>
      ts <- load self;;
      d <- lift (np.power (data ts) (np.scalar c));;
      out <- __init__ d [self] (requires_grad ts);;
      update out (set_backward (BPow self out c));;
      ret out
  | _ => raise AssertionError
  end.

(** [other**-1], on whatever [other] is. *)
Definition py_pow_neg1 (other : pyobj F) : M F (pyobj F) :=
  match other with
  | PyTensor r => o <- __pow__ r (PyNum (of_Z (-1)));; ret (PyTensor o)
  | PyNum c => ret (PyNum (spow c (of_Z (-1))))
  | PyArray a => a' <- lift (np.power a (np.scalar (of_Z (-1))));; ret (PyArray a')
  end.

Definition __truediv__ self (other : pyobj F) : M F ref :=
  o <- py_pow_neg1 other;;
  __mul__ self o.

Definition max self (dim : option Z) (keepdims : bool) : M F ref :=
  ts <- load self;;
  d <- lift (np.max (data ts) dim keepdims);;
  out <- __init__ d [self] (requires_grad ts);;
  update out (set_backward (BMax self out));;
  ret out.

Definition sum self (dim : option Z) (keepdims : bool) : M F ref :=
  ts <- load self;;
  d <- lift (np.sum (data ts) dim keepdims);;
  out <- __init__ d [self] (requires_grad ts);;
  update out (set_backward (BSum self out dim keepdims));;
  ret out.

(** Modelled from the spec: [deeplib.add], which [Tensor.__add__] calls,
    is not among the sources.  The spec gives the operator contract
    (wrap a raw operand, compute A+B, build one node whose parents are the
    operands and whose requiresGrad is the OR of theirs, attach the local
    gradient rule, mutate no operand) and the rule "dA += dOut
    (shape-reduced to A); dB += dOut (shape-reduced to B)". *)
Definition deeplib_add self (other : pyobj F) : M F ref :=
  other <- as_tensor other;;
  ts <- load self;;
  to <- load other;;
  let requires_grad := requires_grad ts || requires_grad to in
  d <- lift (np.add (data ts) (data to));;
  out <- __init__ d [self; other] requires_grad;;
  update out (set_backward (BAdd self other out));;
  ret out.

Definition __add__ self (other : pyobj F) : M F ref := deeplib_add self other.
Definition __iadd__ self (other : pyobj F) : M F ref := __add__ self other.
Definition __radd__ self (other : pyobj F) : M F ref := __add__ self other.

(** [-other], on whatever [other] is. *)
Definition py_neg (other : pyobj F) : M F (pyobj F) :=
  match other with
  | PyTensor r => o <- __neg__ r;; ret (PyTensor o)
  | PyNum c => ret (PyNum (smul (of_Z (-1)) c))
  | PyArray a => a' <- lift (np.multiply (np.scalar (of_Z (-1))) a);; ret (PyArray a')
  end.

Definition __sub__ self (other : pyobj F) : M F ref :=
  o <- py_neg other;;
  __add__ self o.

(** The statement [x += other] for a name [x] bound to a tensor: Python
    evaluates [x.__iadd__(other)] and binds [x] to the result. *)
Definition aug_assign_add (x : string) (other : pyobj F)
    (env : gmap string ref) : M F (gmap string ref) :=
  match env !! x with
  | Some self => r <- __iadd__ self other;; ret (<[x := r]> env)
  | None => raise NoSuchObject
  end.

(** *** The closures *)

(** [while g.ndim > n: g = g.sum(axis=0)]; each turn removes one
    dimension, so [ndim g] turns are enough. *)
Fixpoint sum_leading (fuel : nat) (n : nat) (g : ndarray) : result ndarray :=
  match fuel with
  | 0 => Ok g
  | S fuel' =>
      if decide (n < np.ndim g)
      then g' ← np.sum g (Some 0%Z) false; sum_leading fuel' n g'
      else Ok g
  end.

(** [for i, dim in enumerate(dims): if dim == 1: g = g.sum(axis=i, keepdims=True)],
    from position [i] on. *)
Fixpoint sum_unit_dims (i : nat) (dims : list nat) (g : ndarray) : result ndarray :=
  match dims with
  | [] => Ok g
  | dim :: dims' =>
      g' ← (if decide (dim = 1) then np.sum g (Some (Z.of_nat i)) true else Ok g);
      sum_unit_dims (S i) dims' g'
  end.

(** The two loops that [__mul__._backward] runs on [grad_self] (and on
    [grad_other]) before accumulating it into a gradient [target]. *)
Definition reduce_grad (target g : ndarray) : result ndarray :=
  g' ← sum_leading (np.ndim g) (np.ndim target) g;
  sum_unit_dims 0 (np.shape target) g'.

(** [x.grad], where the code goes on to read [x.grad.ndim]. *)
Definition grad_attr (g : option ndarray) : M F ndarray :=
  match g with Some a => ret a | None => raise AttributeError end.

(** [self.grad = self.grad + g] after the two loops. *)
Definition accumulate_reduced self (g : ndarray) : M F unit :=
  ts <- load self;;
  sg <- grad_attr (grad ts);;
  g' <- lift (reduce_grad sg g);;
  new <- lift (np.add sg g');;
  update self (set_grad (Some new)).

(** [self.grad += g] *)
Definition accumulate self (g : ndarray) : M F unit :=
  ts <- load self;;
  sg <- not_None (grad ts);;
  new <- lift (np.iadd sg g);;
  update self (set_grad (Some new)).

(** [if x.requires_grad: body] *)
Definition when_requires_grad r (body : M F unit) : M F unit :=
  t <- load r;;
  if requires_grad t then body else ret ().

(** [sum._backward] on an [out.grad] that is [None]: NumPy reads [None] as
    a 0-dimensional array of objects, so that [np.expand_dims] accepts only
    the axes 0 and -1, and the arithmetic on its elements raises. *)
Definition none_upstream (dim : option Z) (keepdims : bool) : result ndarray :=
  match dim with
  | Some axis =>
      if keepdims then Raise TypeError
      else _ ← np.normalize_axis 1 axis; Raise TypeError
  | None => Raise TypeError
  end.

Definition run_closure (c : closure F) : M F unit :=
  match c with
  | BNone => ret ()
  | BMul self other out =>
      when_requires_grad self (
        to <- load other;; tout <- load out;;
        og <- not_None (grad tout);;
        grad_self <- lift (np.multiply (data to) og);;
        accumulate_reduced self grad_self);;
      when_requires_grad other (
        ts <- load self;; tout <- load out;;
        og <- not_None (grad tout);;
        grad_other <- lift (np.multiply (data ts) og);;
        accumulate_reduced other grad_other)
  | BMatmul self other out =>
      when_requires_grad self (
        to <- load other;; tout <- load out;;
        og <- matmul_operand (grad tout);;
        g <- lift (np.matmul og (np.T (data to)));;
        accumulate self g);;
      when_requires_grad other (
        ts <- load self;; tout <- load out;;
        og <- matmul_operand (grad tout);;
        g <- lift (np.matmul (np.T (data ts)) og);;
        accumulate other g)
  | BPow self out other =>
      when_requires_grad self (
        ts <- load self;; tout <- load out;;
        og <- not_None (grad tout);;
        g1 <- lift (np.multiply og (np.scalar other));;
        p <- lift (np.power (data ts) (np.scalar (sadd other (of_Z (-1)))));;
        g <- lift (np.multiply g1 p);;
        accumulate self g)
  | BMax self out =>
      when_requires_grad self (
        ts <- load self;; tout <- load out;;
        mask <- lift (np.equal (data ts) (data tout));;
        og <- not_None (grad tout);;
        g <- lift (np.multiply og mask);;
        accumulate self g)
  | BSum self out dim keepdims =>
      when_requires_grad self (
        ts <- load self;; tout <- load out;;
        g <- lift (match grad tout with
                   | Some og =>
                       match dim with
                       | None => np.multiply (np.ones_like (data ts)) og
                       | Some axis =>
                           g ← (if keepdims then Ok og else np.expand_dims og axis);
                           np.broadcast_to g (shape ts)
                       end
                   | None => none_upstream dim keepdims
                   end);;
        accumulate self g)
  | BAdd self other out =>
      when_requires_grad self (
        tout <- load out;;
        og <- not_None (grad tout);;
        accumulate_reduced self og);;
      when_requires_grad other (
        tout <- load out;;
        og <- not_None (grad tout);;
        accumulate_reduced other og)
  end.

(** *** [Tensor.backward] *)

(** [for child in v._children: build_topo(child)], given the recursive
    call. *)
Definition for_children (rec : ref → gset ref * list ref → option (gset ref * list ref))
    (children : list ref) (st : gset ref * list ref) : option (gset ref * list ref) :=
  foldl (λ acc child, acc ≫= rec child) (Some st) children.

(** The nested [build_topo(v)], on the state [(visited, topo)] it closes
    over.  Python bounds the recursion by its recursion limit; here the
    bound is [fuel], and [None] is the limit being hit. *)
Fixpoint build_topo (fuel : nat) (h : list (Tensor F)) (v : ref)
    (st : gset ref * list ref) : option (gset ref * list ref) :=
  match fuel with
  | 0 => None
  | S fuel' =>
      if decide (v ∈ st.1) then Some st
      else
        t ← h !! v;
        st' ← for_children (build_topo fuel' h) (_children t) ({[v]} ∪ st.1, st.2);
        Some (st'.1, st'.2 ++ [v])
  end.

(** [for node in nodes: node._backward()] *)
Fixpoint run_all (nodes : list ref) : M F unit :=
  match nodes with
  | [] => ret ()
  | node :: nodes' =>
      t <- load node;;
      run_closure (_backward t);;
      run_all nodes'
  end.

(** [self.grad = np.ones_like(self.data)] *)
Definition seed self : M F unit :=
  update self (λ t, set_grad (Some (np.ones_like (data t))) t).

(** The recursion is as deep as the graph; the model lets it be as deep
    as the store is large, which no graph exceeds. *)
Definition topo_order (h : list (Tensor F)) self : option (list ref) :=
  snd <$> build_topo (S (length h)) h self (∅, []).

Definition backward self : M F unit :=
  ts <- load self;;
  if negb (requires_grad ts) then raise RuntimeError
  else
    seed self;;
    λ s, match topo_order (heap s) self with
         | Some topo => run_all (reverse topo) s
         | None => (Raise RecursionError, s)
         end.
End engine.

(** ** Vocabulary for the gradient rules *)

(** A dimension [a] of an operand against the dimension [d] of the
    broadcast result: equal, or 1 and stretched. *)
Definition stretches (a d : nat) : Prop := a = d ∨ a = 1.

(** [dim] with its axis normalized for an array with [n] dimensions. *)
Definition normalized_dim (n : nat) (dim : option Z) : result (option nat) :=
  match dim with
  | None => Ok None
  | Some axis => k ← np.normalize_axis n axis; Ok (Some k)
  end.

(** The shape a reduction over [dim] leaves of the shape [sh]. *)
Definition reduced_shape (dim : option nat) (keepdims : bool) (sh : list nat) : list nat :=
  match dim, keepdims with
  | None, false => []
  | None, true => replicate (length sh) 1
  | Some k, true => <[k := 1]> sh
  | Some k, false => delete k sh
  end.

(** The element of the reduced array that the element [idx] of the operand
    went into. *)
Definition reduced_index (dim : option nat) (keepdims : bool) (idx : list nat) : list nat :=
  match dim, keepdims with
  | None, false => []
  | None, true => replicate (length idx) 0
  | Some k, true => <[k := 0]> idx
  | Some k, false => delete k idx
  end.

(** A shape [sh] that broadcasts to [S]: aligned on the trailing
    dimensions, each dimension of [sh] is the one of [S] or is 1. *)
Definition broadcasts_to (sh S : list nat) : Prop :=
  ∃ pre S', S = pre ++ S' ∧ Forall2 stretches sh S'.

Section spec_reduce.
Context {F : Type} `{Scalar F}.

(** The reduction of an incoming gradient [g] for an operand of shape
    [sh], as the spec words it: the leading dimension is summed away once
    for every dimension [g] has in excess; then every dimension where the
    operand has size 1 and [g] has not is summed, the dimension kept. *)
Fixpoint spec_sum_extra (extra : nat) (g : np.ndarray F) : result (np.ndarray F) :=
  match extra with
  | 0 => Ok g
  | S extra' => g' ← np.sum g (Some 0%Z) false; spec_sum_extra extra' g'
  end.

Fixpoint spec_sum_stretched (i : nat) (dims : list nat) (g : np.ndarray F)
    : result (np.ndarray F) :=
  match dims with
  | [] => Ok g
  | d :: dims' =>
      g' ← (if decide (d = 1 ∧ np.shape g !! i ≠ Some 1)
            then np.sum g (Some (Z.of_nat i)) true else Ok g);
      spec_sum_stretched (S i) dims' g'
  end.

Definition spec_reduce (sh : list nat) (g : np.ndarray F) : result (np.ndarray F) :=
  g' ← spec_sum_extra (np.ndim g - length sh) g;
  spec_sum_stretched 0 sh g'.

(** [x.grad] with [d] added to it element by element, where [x] requires
    gradients. *)
Definition add_into (x : ref) (d : np.ndarray F) (h : list (Tensor F)) : list (Tensor F) :=
  match h !! x with
  | Some t =>
      match requires_grad t, grad t with
      | true, Some g =>
          <[x := set_grad (Some (np.build (np.shape g)
                                   (λ idx, sadd (np.get g idx) (np.get d idx)))) t]> h
      | _, _ => h
      end
  | None => h
  end.
End spec_reduce.

(** ** Operator calls *)

Section calls.
Context {F : Type} `{Scalar F} `{NumpyCompat}.



(** A call of one of the operators of [tensor.py] modelled here. *)
Inductive call :=
  | CMul (self : ref) (other : pyobj F)
  | CRMul (self : ref) (other : pyobj F)
  | CNeg (self : ref)
  | CTruediv (self : ref) (other : pyobj F)
  | CMatmul (self : ref) (other : pyobj F)
  | CPow (self : ref) (other : pyobj F)
  | CMax (self : ref) (dim : option Z) (keepdims : bool)
  | CSum (self : ref) (dim : option Z) (keepdims : bool).

Definition eval (c : call) : M F ref :=
  match c with
  | CMul self other => __mul__ self other
  | CRMul self other => __rmul__ self other
  | CNeg self => __neg__ self
  | CTruediv self other => __truediv__ self other
  | CMatmul self other => __matmul__ self other
  | CPow self other => __pow__ self other
  | CMax self dim keepdims => max self dim keepdims
  | CSum self dim keepdims => sum self dim keepdims
  end.

(** The calls that construct exactly one [Tensor]: the operands are
    tensors already and the operator is not a composition of others. *)
Definition single_node (c : call) : bool :=
  match c with
  | CMul _ (PyTensor _) | CRMul _ (PyTensor _) => true
  | CMatmul _ _ | CPow _ _ | CMax _ _ _ | CSum _ _ _ => true
  | _ => false
  end.


(** The object [Tensor(data, _children, requires_grad)] builds in state
    [s], once the operator has set its [_backward]. *)
Definition new_node (data : np.ndarray F) (_children : list ref)
    (requires_grad : bool) (c : closure F) (s : State F) : Tensor F :=
  let rg := requires_grad && negb (NoGrad_enabled s) in
  mkTensor data (np.shape data) rg
           (if rg then Some (np.zeros_like data) else None)
           c (remove_dups _children).

(** The state after [as_tensor other], and the reference it returns. *)
Definition wrapped (other : pyobj F) (s : State F) : State F :=
  match other with
  | PyTensor _ => s
  | PyNum c => set_heap (heap s ++ [new_node (np.scalar c) [] false BNone s]) s
  | PyArray a => set_heap (heap s ++ [new_node a [] false BNone s]) s
  end.
Definition operand_ref (other : pyobj F) (s : State F) : ref :=
  match other with PyTensor r => r | _ => length (heap s) end.
End calls.

(** ** The graph held in a store *)

Section graph.
Context {F : Type}.
Implicit Types (h : list (Tensor F)).

Definition children h (v : ref) : list ref :=
  match h !! v with Some t => _children t | None => [] end.

(** [u] consumes [c]: [c] is one of the parents recorded in [u._children]. *)
Definition consumes h (u c : ref) : Prop := c ∈ children h u.

Inductive reachable h (root : ref) : ref → Prop :=
  | reach_root : reachable h root root
  | reach_child u c : reachable h root u → consumes h u c → reachable h root c.

(** Construction is strictly forward: the parents of a node exist before
    the node does. *)
Definition heap_wf h : Prop := ∀ v c, consumes h v c → c < v.

(** The nodes whose [grad] a closure writes. *)
Definition targets (c : closure F) : list ref :=
  match c with
  | BNone => []
  | BMul self other _ | BMatmul self other _ | BAdd self other _ => [self; other]
  | BPow self _ _ | BMax self _ | BSum self _ _ _ => [self]
  end.

(** Every operator attaches to its result a closure over its operands. *)
Definition closures_coherent h : Prop :=
  ∀ o t r, h !! o = Some t → r ∈ targets (_backward t) → r ∈ _children t.

(** The two invariants of a store the operators build. *)
Definition store_ok (s : State F) : Prop :=
  heap_wf (heap s) ∧ closures_coherent (heap s).


(** [s'] is [s] with more tensors: every object of [s] is in [s'] with the
    same attributes, and the no-grad state is the same. *)
Definition extends (s s' : State F) : Prop :=
  heap s `prefix_of` heap s' ∧ NoGrad_enabled s' = NoGrad_enabled s
  ∧ guards s' = guards s.

(** Between [s] and [s'] only [grad] attributes of the nodes [ws] were
    written: the same objects exist, each with the same data, shape,
    requires_grad, closure and parents. *)
Definition only_grads (ws : list ref) (s s' : State F) : Prop :=
  (∀ r, match heap s !! r with
        | Some t => ∃ g, heap s' !! r = Some (set_grad g t)
                         ∧ (r ∉ ws → g = grad t)
        | None => heap s' !! r = None
        end)
  ∧ NoGrad_enabled s' = NoGrad_enabled s
  ∧ guards s' = guards s.

(** Every run of [m] is within the relation [R] of states. *)
Definition preserves {A} (R : State F → State F → Prop) (m : M F A) : Prop :=
  ∀ s res s', m s = (res, s') → R s s'.

(** A run of [m] that raises has left the state as it was. *)
Definition atomic {A} (m : M F A) : Prop :=
  ∀ s e s', m s = (Raise e, s') → s' = s.

(** Reading the class attribute [NoGrad._enabled]. *)
Definition read_enabled : M F bool := λ s, (Ok (NoGrad_enabled s), s).

(** The state in which the body of [with no_grad():] starts. *)
Definition entered (s : State F) : State F :=
  mkState (heap s) true (guards s ++ [mkNoGrad (Some (NoGrad_enabled s))]).

(** In the list [l], the parents of a node come before it, unless they are
    in [vis] (the nodes some enclosing call of [build_topo] has marked). *)
Definition postordered h (vis : gset ref) (l : list ref) : Prop :=
  ∀ i x c, l !! i = Some x → consumes h x c →
    c ∈ vis ∨ ∃ j, j < i ∧ l !! j = Some c.

(** What one call of [build_topo] (or one run of the loop over the
    children) appends: [new] is appended to [topo] and added to [visited]. *)
Definition appends h (res : option (gset ref * list ref))
    (vis : gset ref) (topo new : list ref) : Prop :=
  res = Some (vis ∪ list_to_set new, topo ++ new)
  ∧ NoDup new
  ∧ (∀ x, x ∈ new → x ∉ vis)
  ∧ postordered h vis new.
End graph.

(** ** Further vocabulary *)

Section tracked.
Context {F : Type}.

(** Between [s] and [s'] nothing but [grad] attributes was written, and
    only on nodes that require gradients. *)
Definition only_tracked_grads (s s' : State F) : Prop :=
  (∀ r, match heap s !! r with
        | Some t => ∃ g, heap s' !! r = Some (set_grad g t)
                         ∧ (requires_grad t = false → g = grad t)
        | None => heap s' !! r = None
        end)
  ∧ NoGrad_enabled s' = NoGrad_enabled s
  ∧ guards s' = guards s.

(** While tracking is switched off, [s'] is [s] with more tensors, none of
    which requires gradients or has a gradient. *)
Definition builds_untracked (s s' : State F) : Prop :=
  NoGrad_enabled s = true →
  extends s s'
  ∧ ∀ r t, length (heap s) ≤ r → heap s' !! r = Some t →
      requires_grad t = false ∧ grad t = None.
End tracked.

(** ** Concrete stores *)

(** A leaf built from raw data outside any no-grad scope. *)
Definition leaf (sh : list nat) (buf : list Z) (rg : bool) : Tensor Z :=
  new_node (np.mk sh buf) [] rg BNone (mkState [] false []).

(** [a = Tensor([1, 2], requires_grad=True); b = Tensor([1, 1, 1], requires_grad=True)] *)
Definition two_vectors : State Z :=
  mkState [leaf [2] [1; 2]%Z true; leaf [3] [1; 1; 1]%Z true] false [].

(** The empty interpreter state. *)
Definition fresh_state : State Z := mkState [] false [].

(** [a = Tensor(data, requires_grad=True); out = a.sum(dim=0); out.backward()]
    for [data] of shape (2,3). *)
Definition sum_dim0_backward `{NumpyCompat} (buf : list Z) : M Z unit :=
  a <- __init__ (np.mk [2; 3] buf) [] true;;
  out <- sum a (Some 0%Z) false;;
  backward out.

(** [a = Tensor(data, requires_grad=True); out = a.max(dim=1); out.backward()] *)
Definition max_dim1_backward `{NumpyCompat} (sh : list nat) (buf : list Z) : M Z unit :=
  a <- __init__ (np.mk sh buf) [] true;;
  out <- max a (Some 1%Z) false;;
  backward out.

(** The rule the spec gives for [max], [dA += dOut * (A == Out)], on a
    zero gradient and a seed of ones, with [Out] and [dOut] aligned with
    [A] (the reduced dimension kept). *)
Definition max_rule_expected `{NumpyCompat} (a : np.ndarray Z) (dim : option Z)
    : result (np.ndarray Z) :=
  out ← np.max a dim true;
  mask ← np.equal a out;
  g ← np.multiply (np.ones_like out) mask;
  np.iadd (np.zeros_like a) g.

(** Checking [heap_wf] and [closures_coherent] on a given store. *)
Fixpoint heap_wfb {F} (v : nat) (h : list (Tensor F)) : bool :=
  match h with
  | [] => true
  | t :: h' => forallb (λ c, c <? v) (_children t) && heap_wfb (S v) h'
  end.

Definition closures_coherentb {F} (h : list (Tensor F)) : bool :=
  forallb (λ t, forallb (λ r, bool_decide (r ∈ _children t)) (targets (_backward t))) h.

(** The NumPy behaviour the concrete runs use ([==] raises on shapes that
    do not broadcast). *)
Definition numpy_current : NumpyCompat := false.

(** [x = Tensor([1, 2])], which does not require gradients. *)
Definition plain_leaf : State Z := mkState [leaf [2] [1; 2]%Z false] false [].

(** [a = Tensor([1, 2], requires_grad=True); b = Tensor([3, 4])] *)
Definition two_rows : State Z :=
  mkState [leaf [2] [1; 2]%Z true; leaf [2] [3; 4]%Z false] false [].

(** Two [NoGrad] instances, not entered yet. *)
Definition two_guards : State Z := mkState [] false [mkNoGrad None; mkNoGrad None].

(** The diamond [c = a * b; d = a * c]: [a] is reached from [d] directly
    and through [c]. *)
Definition diamond : State Z :=
  ((a <- __init__ (np.mk [2] [1; 2]%Z) [] true;;
    b <- __init__ (np.mk [2] [3; 4]%Z) [] true;;
    c <- __mul__ a (PyTensor b);;
    __mul__ a (PyTensor c)) fresh_state).2.

(** [a] of shape (3,1) times [b] of shape (3,4), and the product seeded
    with ones. *)
Definition product_seeded : State Z :=
  ((a <- __init__ (np.mk [3; 1] [1; 2; 3]%Z) [] true;;
    b <- __init__ (np.mk [3; 4] [1; 2; 3; 4; 5; 6; 7; 8; 9; 10; 11; 12]%Z) [] true;;
    c <- __mul__ a (PyTensor b);;
    seed c) fresh_state).2.

(** [a] of shape (2,3) summed along [dim=0], and the sum seeded with ones. *)
Definition sum_seeded : State Z :=
  ((a <- __init__ (np.mk [2; 3] [1; 2; 3; 4; 5; 6]%Z) [] true;;
    out <- sum a (Some 0%Z) false;;
    seed out) fresh_state).2.


(** [a = Tensor([[1, 5], [7, 7]], requires_grad=True);
    out = a.max(dim=1, keepdims=True)], and [out] seeded with ones. *)
Definition max_keepdims_seeded `{NumpyCompat} : State Z :=
  ((a <- __init__ (np.mk [2; 2] [1; 5; 7; 7]%Z) [] true;;
    out <- max a (Some 1%Z) true;;
    seed out) fresh_state).2.

(* ===================================================================== *)
(** * Part II: lemmas and theorems *)
(* ===================================================================== *)

(** ** Lists *)

Lemma insert_snoc {A} (l : list A) (x y : A) : <[length l := x]> (l ++ [y]) = l ++ [x].
Proof. by rewrite <- (Nat.add_0_r (length l)), insert_app_r. Qed.


Lemma lookup_snoc {A} (l : list A) (x : A) : (l ++ [x]) !! length l = Some x.
Proof. by rewrite list_lookup_middle. Qed.

(** ** Stepping through a computation *)

Section monad_lemmas.
Context {F : Type}.

Lemma bind_inv {A B} (m : M F A) (k : A → M F B) s res s' :
  bind m k s = (res, s') →
  (∃ a s1, m s = (Ok a, s1) ∧ k a s1 = (res, s'))
  ∨ (∃ e, m s = (Raise e, s') ∧ res = Raise e).
Proof.
  unfold bind. destruct (m s) as [[a|e] s1]; intros Hk.
  - left. eauto.
  - right. inversion Hk; subst. eauto.
Qed.

Lemma bind_Ok {A B} (m : M F A) (k : A → M F B) s a s1 :
  m s = (Ok a, s1) → bind m k s = k a s1.
Proof. unfold bind. by intros ->. Qed.

Lemma bind_Raise {A B} (m : M F A) (k : A → M F B) s e s1 :
  m s = (Raise e, s1) → bind m k s = (Raise e, s1).
Proof. unfold bind. by intros ->. Qed.

Lemma load_Some r (t : Tensor F) s : heap s !! r = Some t → load r s = (Ok t, s).
Proof. unfold load. by intros ->. Qed.

Lemma load_inv r s (res : result (Tensor F)) s' :
  load r s = (res, s') →
  s' = s ∧ ((∃ t, res = Ok t ∧ heap s !! r = Some t)
            ∨ (res = Raise NoSuchObject ∧ heap s !! r = None)).
Proof.
  unfold load. destruct (heap s !! r) eqn:E; intros [= <- <-]; eauto.
Qed.

Lemma update_Some r f (t : Tensor F) s :
  heap s !! r = Some t → update r f s = (Ok (), set_heap (<[r := f t]> (heap s)) s).
Proof. unfold update. by intros ->. Qed.

Lemma lift_inv {A} (m : result A) s res s' :
  lift (F:=F) m s = (res, s') → s' = s ∧ res = m.
Proof. by intros [= <- <-]. Qed.
End monad_lemmas.

(** ** The no-grad guard *)

Section NoGrad_facts.
Context {F : Type}.
Implicit Types (s : State F).

Lemma enter_spec s g :
  g < length (guards s) →
  __enter__ g s
  = (Ok (), mkState (heap s) true
                    (<[g := mkNoGrad (Some (NoGrad_enabled s))]> (guards s))).
Proof.
  intros Hg. unfold __enter__.
  destruct (lookup_lt_is_Some_2 _ _ Hg) as [x ->]. done.
Qed.

Lemma exit_spec s g p :
  guards s !! g = Some (mkNoGrad (Some p)) →
  __exit__ g s = (Ok (), mkState (heap s) p (guards s)).
Proof. unfold __exit__. by intros ->. Qed.

(** C7. Entering a guard stores the current value of [NoGrad._enabled] in
    that instance and switches tracking off; leaving an instance writes
    back the value that very instance stored, whatever happened to the
    switch or to other instances in between.  So for two distinct instances
    entered one inside the other, leaving the inner one leaves tracking
    disabled, and leaving the outer one then brings back the value from
    before both. *)
Theorem NoGrad_saves_and_restores s (g1 g2 : nat) :
  g1 < length (guards s) → g2 < length (guards s) → g1 ≠ g2 →
  ∃ s1 s2 s3 s4,
    __enter__ g1 s = (Ok (), s1)
    ∧ NoGrad_enabled s1 = true
    ∧ guards s1 !! g1 = Some (mkNoGrad (Some (NoGrad_enabled s)))
    ∧ (∀ s' : State F, guards s' !! g1 = guards s1 !! g1 →
         __exit__ g1 s' = (Ok (), mkState (heap s') (NoGrad_enabled s) (guards s')))
    ∧ __enter__ g2 s1 = (Ok (), s2)
    ∧ NoGrad_enabled s2 = true
    ∧ guards s2 !! g2 = Some (mkNoGrad (Some true))
    ∧ guards s2 !! g1 = Some (mkNoGrad (Some (NoGrad_enabled s)))
    ∧ __exit__ g2 s2 = (Ok (), s3)
    ∧ NoGrad_enabled s3 = true
    ∧ __exit__ g1 s3 = (Ok (), s4)
    ∧ NoGrad_enabled s4 = NoGrad_enabled s.
Proof.
  intros H1 H2 Hne.
  set (s1 := mkState (heap s) true
               (<[g1 := mkNoGrad (Some (NoGrad_enabled s))]> (guards s))).
  set (s2 := mkState (heap s) true (<[g2 := mkNoGrad (Some true)]> (guards s1))).
  assert (Hg1 : guards s1 !! g1 = Some (mkNoGrad (Some (NoGrad_enabled s)))).
  { simpl. by apply list_lookup_insert_eq. }
  assert (Hg2 : guards s2 !! g2 = Some (mkNoGrad (Some true))).
  { simpl. apply list_lookup_insert_eq. by rewrite length_insert. }
  assert (Hg12 : guards s2 !! g1 = Some (mkNoGrad (Some (NoGrad_enabled s)))).
  { simpl. rewrite list_lookup_insert_ne by done. by apply list_lookup_insert_eq. }
  exists s1, s2, (mkState (heap s) true (guards s2)),
         (mkState (heap s) (NoGrad_enabled s) (guards s2)).
  split_and!.
  - by apply enter_spec.
  - done.
  - done.
  - intros s' Hs'. apply exit_spec. by rewrite Hs'.
  - rewrite enter_spec; [done|]. simpl. by rewrite length_insert.
  - done.
  - done.
  - done.
  - by rewrite (exit_spec s2 g2 true Hg2).
  - done.
  - by rewrite (exit_spec (mkState (heap s) true (guards s2)) g1 _ Hg12).
  - done.
Qed.

Lemma with_no_grad_Ok {A} (body : M F A) s a sb :
  body (entered s) = (Ok a, sb) →
  guards sb !! length (guards s) = Some (mkNoGrad (Some (NoGrad_enabled s))) →
  with_no_grad body s = (Ok a, mkState (heap sb) (NoGrad_enabled s) (guards sb)).
Proof.
  intros Hbody Hg. unfold with_no_grad.
  rewrite (bind_Ok no_grad _ s (length (guards s))
             (mkState (heap s) (NoGrad_enabled s) (guards s ++ [mkNoGrad None])))
    by done.
  erewrite bind_Ok; last first.
  { apply enter_spec. simpl. rewrite length_app. simpl. lia. }
  simpl. rewrite insert_snoc. fold (entered s). rewrite Hbody.
  erewrite bind_Ok; [done|]. by apply exit_spec.
Qed.

(** The same on the [with] statement: inside the outer scope, after the
    inner scope has ended, [NoGrad._enabled] reads [True]; after both, it
    reads what it read before. *)
Lemma nested_no_grad s :
  ∃ s', (e1 <- with_no_grad (with_no_grad (ret ());; read_enabled);;
         e2 <- read_enabled;; ret (e1, e2)) s
        = (Ok (true, NoGrad_enabled s), s').
Proof.
  eexists. erewrite bind_Ok; last first.
  { apply with_no_grad_Ok.
    - erewrite bind_Ok; [reflexivity|].
      apply with_no_grad_Ok; [reflexivity|]. apply lookup_snoc.
    - simpl. rewrite lookup_app_l by (rewrite length_app; simpl; lia).
      apply lookup_snoc. }
  reflexivity.
Qed.
End NoGrad_facts.

(** ** [Tensor.backward]: the guard *)

Section backward_guard.
Context {F : Type} `{Scalar F} `{NumpyCompat}.
Implicit Types (s : State F) (t : Tensor F).

(** C2. On a tensor whose [requires_grad] is false, [backward] raises
    [RuntimeError] and the state it leaves is the state it was called in:
    nothing was traversed, no [grad] was written, and no value is
    returned. *)
Theorem backward_requires_grad_false s self t :
  heap s !! self = Some t →
  requires_grad t = false →
  backward self s = (Raise RuntimeError, s).
Proof.
  intros Ht Hrg. unfold backward.
  rewrite (bind_Ok _ _ _ _ _ (load_Some _ _ _ Ht)). by rewrite Hrg.
Qed.
End backward_guard.

(** ** The traversal of [Tensor.backward] *)

Section topo.
Context {F : Type} (h : list (Tensor F)).
Hypothesis Hwf : heap_wf h.

Lemma reachable_trans (a b c : ref) :
  reachable h a b → reachable h b c → reachable h a c.
Proof. intros Hab Hbc. induction Hbc; [done|]. by eapply reach_child. Qed.

Lemma reachable_le (a b : ref) : reachable h a b → b ≤ a.
Proof.
  induction 1 as [|u c _ IH Hc]; [done|]. apply Hwf in Hc. lia.
Qed.

Lemma consumes_lookup (v c : ref) (t : Tensor F) :
  h !! v = Some t → consumes h v c ↔ c ∈ _children t.
Proof. unfold consumes, children. by intros ->. Qed.

Lemma consumes_valid (v c : ref) : consumes h v c → v < length h.
Proof.
  unfold consumes, children. destruct (h !! v) eqn:E.
  - intros _. by eapply lookup_lt_Some.
  - by intros ?%not_elem_of_nil.
Qed.

Lemma postordered_nil vis : postordered h vis [].
Proof. intros i x c Hi. by rewrite lookup_nil in Hi. Qed.

Lemma postordered_app vis l1 l2 :
  postordered h vis l1 →
  postordered h (vis ∪ list_to_set l1) l2 →
  postordered h vis (l1 ++ l2).
Proof.
  intros H1 H2 i x c Hi Hc.
  destruct (decide (i < length l1)) as [Hlt|Hge].
  - rewrite lookup_app_l in Hi by done.
    destruct (H1 i x c Hi Hc) as [?|(j & Hj & Hlj)]; [by left|].
    right. exists j. split; [done|]. by rewrite lookup_app_l by lia.
  - rewrite lookup_app_r in Hi by lia.
    destruct (H2 _ x c Hi Hc) as [Hin|(j & Hj & Hlj)].
    + apply elem_of_union in Hin as [?|Hin]; [by left|].
      apply elem_of_list_to_set, list_elem_of_lookup in Hin as [j Hj].
      right. exists j. split; [apply lookup_lt_Some in Hj; lia|].
      by rewrite lookup_app_l by (by eapply lookup_lt_Some).
    + right. exists (length l1 + j). split; [lia|].
      rewrite lookup_app_r by lia. by replace (length l1 + j - length l1) with j by lia.
Qed.

Lemma for_children_appends fuel (cs : list ref) :
  (∀ v vis topo, v < fuel → v < length h →
     ∃ new, appends h (build_topo fuel h v (vis, topo)) vis topo new
            ∧ (∀ x, x ∈ new → reachable h v x)
            ∧ (v ∈ vis ∨ v ∈ new)) →
  ∀ vis topo,
  (∀ c, c ∈ cs → c < fuel ∧ c < length h) →
  ∃ new, appends h (for_children (build_topo fuel h) cs (vis, topo)) vis topo new
         ∧ (∀ x, x ∈ new → ∃ c, c ∈ cs ∧ reachable h c x)
         ∧ (∀ c, c ∈ cs → c ∈ vis ∨ c ∈ new).
Proof.
  intros IH. unfold for_children.
  induction cs as [|c cs IHcs]; intros vis topo Hcs.
  - exists []. split_and!.
    + split_and!; [|constructor|by intros ? ?%not_elem_of_nil|apply postordered_nil].
      simpl. by rewrite (right_id_L ∅ (∪)), app_nil_r.
    + by intros ? ?%not_elem_of_nil.
    + by intros ? ?%not_elem_of_nil.
  - destruct (Hcs c) as [Hc1 Hc2]; [by left|].
    destruct (IH c vis topo Hc1 Hc2) as (n1 & (E1 & ND1 & F1 & P1) & R1 & V1).
    destruct (IHcs (vis ∪ list_to_set n1) (topo ++ n1)) as
      (n2 & (E2 & ND2 & F2 & P2) & R2 & V2).
    { intros c' Hc'. apply Hcs. by right. }
    exists (n1 ++ n2). split_and!.
    + split_and!.
      * simpl. rewrite E1. simpl. rewrite E2.
        by rewrite list_to_set_app_L, (assoc_L (∪)), (assoc (++)).
      * apply NoDup_app. split_and!; [done| |done].
        intros x Hx1 Hx2. apply (F2 x Hx2). set_solver.
      * intros x [Hx|Hx]%elem_of_app; [by apply F1|].
        intros Hv. apply (F2 x Hx). set_solver.
      * by apply postordered_app.
    + intros x [Hx|Hx]%elem_of_app.
      * exists c. split; [by left|by apply R1].
      * destruct (R2 x Hx) as (c' & Hc' & Hr). exists c'. split; [by right|done].
    + intros c' [->|Hc']%elem_of_cons.
      * destruct V1; [by left|right; set_solver].
      * destruct (V2 c' Hc') as [Hin|Hin]; [|right; set_solver].
        apply elem_of_union in Hin as [?|?]; [by left|right; set_solver].
Qed.
Lemma build_topo_S fuel v (vis : gset ref) (topo : list ref) :
  build_topo (S fuel) h v (vis, topo)
  = if decide (v ∈ vis) then Some (vis, topo)
    else t ← h !! v;
         st' ← for_children (build_topo fuel h) (_children t) ({[v]} ∪ vis, topo);
         Some (st'.1, st'.2 ++ [v]).
Proof. done. Qed.

Lemma build_topo_appends fuel :
  ∀ v vis topo, v < fuel → v < length h →
    ∃ new, appends h (build_topo fuel h v (vis, topo)) vis topo new
           ∧ (∀ x, x ∈ new → reachable h v x)
           ∧ (v ∈ vis ∨ v ∈ new)
           ∧ (v ∉ vis → last new = Some v).
Proof.
  induction fuel as [|fuel IH']; intros v vis topo Hfuel Hv; [lia|].
  assert (IH : ∀ v vis topo, v < fuel → v < length h →
            ∃ new, appends h (build_topo fuel h v (vis, topo)) vis topo new
                   ∧ (∀ x, x ∈ new → reachable h v x)
                   ∧ (v ∈ vis ∨ v ∈ new)).
  { intros v' vis' topo' H1 H2.
    destruct (IH' v' vis' topo' H1 H2) as (new & ? & ? & ? & _). eauto. }
  clear IH'.
  rewrite build_topo_S. destruct (decide (v ∈ vis)) as [Hin|Hnin].
  { exists []. split_and!; [split_and!| |by left|done].
    - simpl. by rewrite (right_id_L ∅ (∪)), app_nil_r.
    - constructor.
    - by intros ? ?%not_elem_of_nil.
    - apply postordered_nil.
    - by intros ? ?%not_elem_of_nil. }
  destruct (lookup_lt_is_Some_2 _ _ Hv) as [t Ht]. rewrite Ht. simpl.
  assert (Hch : ∀ c, c ∈ _children t → c < v).
  { intros c Hc. apply Hwf. by apply (consumes_lookup v c t). }
  destruct (for_children_appends fuel (_children t) IH ({[v]} ∪ vis) topo)
    as (n & (E & ND & Fr & PO) & R & V).
  { intros c Hc%Hch. lia. }
  rewrite E. simpl. exists (n ++ [v]).
  assert (Hn : ∀ x, x ∈ n → x < v).
  { intros x (c & Hc & Hr)%R. apply reachable_le in Hr. apply Hch in Hc. lia. }
  split_and!; [split_and!| |right; set_solver|intros _; apply last_snoc].
  - f_equal. f_equal; [|by rewrite (assoc (++))].
    rewrite list_to_set_app_L. set_solver.
  - apply NoDup_app. split_and!; [done| |apply NoDup_singleton].
    intros x Hx Hxv%list_elem_of_singleton. subst x. apply Hn in Hx. lia.
  - intros x [Hx|Hx%list_elem_of_singleton]%elem_of_app; [|by subst x].
    intros Hxv. apply (Fr x Hx). set_solver.
  - intros i x c Hi Hc.
    destruct (decide (i < length n)) as [Hlt|Hge].
    + rewrite lookup_app_l in Hi by done.
      destruct (PO i x c Hi Hc) as [Hcv|(j & Hj & Hlj)].
      * apply elem_of_union in Hcv as [Hcv%elem_of_singleton|?]; [|by left].
        subst c. apply Hwf in Hc. apply list_elem_of_lookup_2, Hn in Hi. lia.
      * right. exists j. split; [done|]. by rewrite lookup_app_l by lia.
    + rewrite lookup_app_r in Hi by lia.
      apply list_lookup_singleton_Some in Hi as [Hi Hxv]. subst x.
      assert (Hct : c ∈ _children t) by by apply (consumes_lookup v c t).
      destruct (V c Hct) as [Hcv|Hcn].
      * apply elem_of_union in Hcv as [Hcv%elem_of_singleton|?]; [|by left].
        subst c. apply Hch in Hct. lia.
      * apply list_elem_of_lookup in Hcn as [j Hj]. right. exists j.
        split; [apply lookup_lt_Some in Hj; lia|].
        by rewrite lookup_app_l by (by eapply lookup_lt_Some).
  - intros x [Hx|Hx%list_elem_of_singleton]%elem_of_app; [|subst x; constructor].
    destruct (R x Hx) as (c & Hc & Hr).
    apply reachable_trans with c; [|done].
    eapply reach_child; [constructor|]. by apply (consumes_lookup v c t).
Qed.


(** The post-order of the nodes reachable from [root]: its existence (the
    recursion does return), and what it contains in which order. *)
Lemma topo_order_spec (root : ref) :
  root < length h →
  ∃ topo, topo_order h root = Some topo
          ∧ NoDup topo
          ∧ (∀ x, x ∈ topo ↔ reachable h root x)
          ∧ postordered h ∅ topo
          ∧ last topo = Some root.
Proof.
  intros Hroot.
  destruct (build_topo_appends (S (length h)) root ∅ []) as
    (topo & (E & ND & _ & PO) & R & V & L); [lia|done|].
  exists topo. unfold topo_order. rewrite E.
  split_and!; [done|done| |done|by apply L].
  intros x. split; [by apply R|].
  induction 1 as [|u c _ IH Hc].
  - by destruct V as [?%not_elem_of_empty|?].
  - apply list_elem_of_lookup in IH as [i Hi].
    destruct (PO i u c Hi Hc) as [?%not_elem_of_empty|(j & _ & Hj)]; [done|].
    by eapply list_elem_of_lookup_2.
Qed.

End topo.

(** ** What a computation may change *)

Section frames.
Context {F : Type} `{Scalar F} `{NumpyCompat}.
Implicit Types (s : State F) (t : Tensor F).

Lemma preserves_bind {A B} (R : State F → State F → Prop) `{!Transitive R}
    (m : M F A) (k : A → M F B) :
  preserves R m → (∀ a, preserves R (k a)) → preserves R (bind m k).
Proof.
  intros Hm Hk s res s' [(a & s1 & Ha & Hb)|(e & He & _)]%bind_inv.
  - transitivity s1; [by eapply Hm|by eapply Hk].
  - by eapply Hm.
Qed.

Lemma preserves_pure {A} (R : State F → State F → Prop) `{!Reflexive R} (m : M F A) :
  (∀ s, (m s).2 = s) → preserves R m.
Proof. intros Hm s res s' E. specialize (Hm s). rewrite E in Hm. by subst. Qed.

Lemma preserves_load (R : State F → State F → Prop) `{!Reflexive R} r :
  preserves R (load (F:=F) r).
Proof. apply preserves_pure; [done|]. intros s. unfold load. by destruct (heap s !! r). Qed.

Lemma preserves_lift {A} (R : State F → State F → Prop) `{!Reflexive R} (x : result A) :
  preserves R (lift (F:=F) x).
Proof. by apply preserves_pure. Qed.

Lemma preserves_ret {A} (R : State F → State F → Prop) `{!Reflexive R} (a : A) :
  preserves R (ret (F:=F) a).
Proof. by apply preserves_pure. Qed.

Lemma preserves_raise {A} (R : State F → State F → Prop) `{!Reflexive R} e :
  preserves R (raise (F:=F) (A:=A) e).
Proof. by apply preserves_pure. Qed.

Lemma preserves_not_None (R : State F → State F → Prop) `{!Reflexive R} g :
  preserves R (not_None (F:=F) g).
Proof. destruct g; [apply preserves_ret|apply preserves_raise]; done. Qed.

Lemma preserves_grad_attr (R : State F → State F → Prop) `{!Reflexive R} g :
  preserves R (grad_attr (F:=F) g).
Proof. destruct g; [apply preserves_ret|apply preserves_raise]; done. Qed.

Lemma preserves_matmul_operand (R : State F → State F → Prop) `{!Reflexive R} g :
  preserves R (matmul_operand (F:=F) g).
Proof. destruct g; [apply preserves_ret|apply preserves_raise]; done. Qed.

#[export] Instance only_grads_refl ws : Reflexive (only_grads (F:=F) ws).
Proof.
  intros s. split; [|done]. intros r. destruct (heap s !! r) as [t|] eqn:E; [|done].
  exists (grad t). by destruct t.
Qed.

#[export] Instance only_grads_trans ws : Transitive (only_grads (F:=F) ws).
Proof.
  intros s1 s2 s3 (H12 & E12 & G12) (H23 & E23 & G23).
  split; [|split; congruence]. intros r. specialize (H12 r). specialize (H23 r).
  destruct (heap s1 !! r) as [t|]; [|by rewrite H12 in H23].
  destruct H12 as (g & Hg & Hws). rewrite Hg in H23.
  destruct H23 as (g' & Hg' & Hws'). exists g'. split; [done|].
  intros Hr. rewrite (Hws' Hr). simpl. by apply Hws.
Qed.

Lemma update_grad_only ws r g :
  r ∈ ws → preserves (only_grads ws) (update (F:=F) r (set_grad g)).
Proof.
  intros Hr s res s'. unfold update.
  destruct (heap s !! r) as [t|] eqn:E; intros [= <- <-]; [|apply only_grads_refl].
  split; [|done]. intros r'. simpl.
  destruct (decide (r = r')) as [<-|Hne].
  - rewrite E. exists g. split; [|done].
    apply list_lookup_insert_eq. by eapply lookup_lt_Some.
  - rewrite list_lookup_insert_ne by done.
    destruct (heap s !! r') as [t'|]; [|done]. exists (grad t'). by destruct t'.
Qed.

End frames.

Ltac preserves_step :=
  first
    [ apply preserves_load; apply _
    | apply preserves_lift; apply _
    | apply preserves_ret; apply _
    | apply preserves_raise; apply _
    | apply preserves_not_None; apply _
    | apply preserves_grad_attr; apply _
    | apply preserves_matmul_operand; apply _
    | apply preserves_bind; [apply _| |intros ?]
    | match goal with
      | |- preserves _ (if ?b then _ else _) => destruct b
      | |- preserves _ (match ?x with _ => _ end) => destruct x
      end ].

Section closure_frames.
Context {F : Type} `{Scalar F} `{NumpyCompat}.
Implicit Types (s : State F) (t : Tensor F).

Lemma accumulate_grad_only ws self g :
  self ∈ ws → preserves (only_grads ws) (accumulate self g).
Proof.
  intros Hin. unfold accumulate. repeat preserves_step. by apply update_grad_only.
Qed.

Lemma accumulate_reduced_grad_only ws self g :
  self ∈ ws → preserves (only_grads ws) (accumulate_reduced self g).
Proof.
  intros Hin. unfold accumulate_reduced. repeat preserves_step.
  by apply update_grad_only.
Qed.

(** A closure writes nothing but the [grad] of its targets. *)
Lemma run_closure_grad_only (c : closure F) :
  preserves (only_grads (targets c)) (run_closure c).
Proof.
  destruct c; simpl; unfold when_requires_grad; repeat preserves_step;
    apply update_grad_only; set_solver.
Qed.

Lemma only_grads_lookup ws s s' r t' :
  only_grads ws s s' → heap s' !! r = Some t' →
  ∃ t, heap s !! r = Some t ∧ t' = set_grad (grad t') t.
Proof.
  intros (Hh & _) Hr. specialize (Hh r).
  destruct (heap s !! r) as [t|]; [|congruence].
  destruct Hh as (g & Hg & _). exists t. split; [done|].
  rewrite Hg in Hr. by injection Hr as <-.
Qed.

(** The closures of [nodes] leave alone the [grad] of a node that none of
    them targets. *)
Lemma run_all_untargeted (nodes : list ref) (c : ref) s res s' :
  run_all nodes s = (res, s') →
  (∀ x tx, x ∈ nodes → heap s !! x = Some tx → c ∉ targets (_backward tx)) →
  heap s' !! c = heap s !! c.
Proof.
  revert s. induction nodes as [|x nodes IH]; intros s Hrun Hc.
  { by injection Hrun as <- <-. }
  simpl in Hrun.
  apply bind_inv in Hrun as [(tx & s1 & Hl & Hrun)|(e & Hl & _)]; last first.
  { apply (preserves_load eq) in Hl. by subst. }
  pose proof Hl as Hl'. apply (preserves_load eq) in Hl'. subst s1.
  unfold load in Hl. destruct (heap s !! x) as [tx'|] eqn:Hx; [|done].
  injection Hl as ->.
  assert (Hcx : c ∉ targets (_backward tx)) by (eapply Hc; [by left|done]).
  apply bind_inv in Hrun as [([] & s1 & Hclo & Hrun)|(e & Hclo & _)].
  - pose proof (run_closure_grad_only _ _ _ _ Hclo) as Hfr.
    rewrite (IH s1 Hrun).
    + destruct Hfr as (Hh & _). specialize (Hh c).
      destruct (heap s !! c) as [tc|]; [|done].
      destruct Hh as (g & -> & Hg). rewrite (Hg Hcx). by destruct tc.
    + intros y ty Hy Hty.
      destruct (only_grads_lookup _ _ _ _ _ Hfr Hty) as (ty0 & Hty0 & Ety).
      rewrite Ety. simpl. eapply Hc; [by right|done].
  - pose proof (run_closure_grad_only _ _ _ _ Hclo) as (Hh & _).
    specialize (Hh c). destruct (heap s !! c) as [tc|]; [|done].
    destruct Hh as (g & -> & Hg). rewrite (Hg Hcx). by destruct tc.
Qed.
End closure_frames.

(** ** Arrays: indices and buffers *)

Section ndarray_facts.
Context {F : Type} `{Scalar F}.
Implicit Types (a b : np.ndarray F) (sh idx : list nat).

Lemma length_concat_uniform {A} (ls : list (list A)) (k : nat) :
  Forall (λ l, length l = k) ls → length (concat ls) = length ls * k.
Proof.
  induction 1 as [|l ls Hl _ IH]; [done|]. simpl. rewrite length_app. lia.
Qed.

Lemma indices_length sh : length (np.indices sh) = np.size_of sh.
Proof.
  induction sh as [|n sh IH]; [done|]. simpl.
  rewrite (length_concat_uniform _ (np.size_of sh)).
  - by rewrite length_fmap, length_seq.
  - apply Forall_fmap, Forall_forall. intros i _. simpl. by rewrite length_fmap.
Qed.

Lemma build_wf sh f : np.wf (np.build (F:=F) sh f).
Proof. unfold np.wf, np.build. simpl. by rewrite length_fmap, indices_length. Qed.

Lemma fmap_const_replicate {A B} (l : list A) (c : B) :
  (λ _, c) <$> l = replicate (length l) c.
Proof. induction l as [|x l IH]; [done|]. simpl. by rewrite <- IH. Qed.

Lemma ones_like_spec a :
  np.shape (np.ones_like a) = np.shape a
  ∧ np.buf (np.ones_like a) = replicate (np.size a) sone.
Proof.
  split; [done|]. unfold np.ones_like, np.build, np.size. simpl.
  by rewrite fmap_const_replicate, indices_length.
Qed.


Lemma lookup_concat_uniform {A} (ls : list (list A)) (k i j : nat) (l : list A) :
  Forall (λ l, length l = k) ls → ls !! i = Some l → j < k →
  concat ls !! (i * k + j) = l !! j.
Proof.
  intros Hls. revert i. induction Hls as [|l0 ls Hl0 _ IH]; intros i Hi Hj; [done|].
  destruct i as [|i]; simpl in *.
  - injection Hi as ->. by rewrite lookup_app_l by lia.
  - rewrite lookup_app_r by lia. rewrite <- (IH i Hi Hj). f_equal. lia.
Qed.

Lemma elem_of_concat {A} (x : A) (ls : list (list A)) :
  x ∈ concat ls → ∃ l, x ∈ l ∧ l ∈ ls.
Proof.
  induction ls as [|l ls IH]; simpl; [by intros ?%not_elem_of_nil|].
  intros [Hx|Hx]%elem_of_app.
  - exists l. split; [done|by left].
  - destruct (IH Hx) as (l' & ? & ?). exists l'. split; [done|by right].
Qed.

Lemma in_bounds_length sh idx : np.in_bounds sh idx → length idx = length sh.
Proof. apply Forall2_length. Qed.

Lemma offset_lt sh idx : np.in_bounds sh idx → np.offset sh idx < np.size_of sh.
Proof.
  unfold np.in_bounds. intros Hb. induction Hb as [|i n idx sh Hi _ IH]; simpl; [lia|].
  fold (np.size_of sh). nia.
Qed.

Lemma indices_lookup sh idx :
  np.in_bounds sh idx → np.indices sh !! np.offset sh idx = Some idx.
Proof.
  unfold np.in_bounds. intros Hb. induction Hb as [|i n idx sh Hi Hb IH]; [done|].
  simpl. fold (np.size_of sh).
  rewrite (lookup_concat_uniform _ (np.size_of sh) i _ ((i ::.) <$> np.indices sh)).
  - by rewrite list_lookup_fmap, IH.
  - apply Forall_fmap, Forall_forall. intros j _. simpl.
    by rewrite length_fmap, indices_length.
  - rewrite list_lookup_fmap, lookup_seq_lt by done. done.
  - by apply offset_lt.
Qed.

Lemma indices_in_bounds sh idx : idx ∈ np.indices sh → np.in_bounds sh idx.
Proof.
  revert idx. induction sh as [|n sh IH]; intros idx; simpl.
  - intros ->%list_elem_of_singleton. constructor.
  - intros (l & Hidx & Hl)%elem_of_concat.
    apply list_elem_of_fmap in Hl as (i & -> & Hi).
    apply list_elem_of_fmap in Hidx as (idx' & -> & Hidx').
    apply elem_of_seq in Hi. constructor; [lia|by apply IH].
Qed.

Lemma get_build sh f idx :
  np.in_bounds sh idx → np.get (np.build (F:=F) sh f) idx = f idx.
Proof.
  intros Hb. unfold np.get, np.build. simpl.
  apply nth_lookup_Some. by rewrite list_lookup_fmap, indices_lookup.
Qed.

Lemma build_ext sh (f f' : list nat → F) :
  (∀ idx, np.in_bounds sh idx → f idx = f' idx) → np.build sh f = np.build sh f'.
Proof.
  intros Hf. unfold np.build. f_equal. apply list_fmap_ext.
  intros i idx Hi. apply Hf, indices_in_bounds. by eapply list_elem_of_lookup_2.
Qed.

Lemma fmap_concat {A B} (f : A → B) (ls : list (list A)) :
  f <$> concat ls = concat ((λ l : list A, f <$> l) <$> ls).
Proof.
  induction ls as [|l ls IH]; [done|]. simpl. by rewrite fmap_app, IH.
Qed.

Lemma concat_seq_chunks (k a n : nat) :
  concat ((λ i, seq (i * k) k) <$> seq a n) = seq (a * k) (n * k).
Proof.
  revert a. induction n as [|n IH]; intros a; [done|]. simpl.
  rewrite IH. replace (S a * k) with (a * k + k) by lia. by rewrite <- seq_app.
Qed.

Lemma offset_indices sh : np.offset sh <$> np.indices sh = seq 0 (np.size_of sh).
Proof.
  induction sh as [|n sh IH]; [done|]. simpl. fold (np.size_of sh).
  rewrite fmap_concat, <- list_fmap_compose.
  transitivity (seq (0 * np.size_of sh) (n * np.size_of sh)); [|done].
  rewrite <- (concat_seq_chunks (np.size_of sh) 0 n). f_equal.
  apply list_fmap_ext. intros _ i _. simpl.
  rewrite <- list_fmap_compose.
  transitivity (seq (i * np.size_of sh + 0) (np.size_of sh)); [|f_equal; lia].
  by rewrite <- fmap_add_seq, <- IH, <- list_fmap_compose.
Qed.

Lemma fmap_nth_seq {A} (l : list A) (d : A) :
  (λ k, nth k l d) <$> seq 0 (length l) = l.
Proof.
  apply list_eq. intros k. rewrite list_lookup_fmap.
  destruct (l !! k) as [x|] eqn:E.
  - rewrite lookup_seq_lt by (by eapply lookup_lt_Some). simpl.
    by rewrite (nth_lookup_Some _ _ _ _ E).
  - by rewrite lookup_seq_ge by (by apply lookup_ge_None).
Qed.

Lemma build_get a : np.wf a → np.build (np.shape a) (np.get a) = a.
Proof.
  destruct a as [sh buf]. unfold np.wf, np.build, np.get. simpl. intros Hwf.
  f_equal.
  transitivity ((λ k, nth k buf szero) <$> (np.offset sh <$> np.indices sh)).
  { by rewrite <- list_fmap_compose. }
  rewrite offset_indices, <- Hwf. apply fmap_nth_seq.
Qed.

(** *** Shapes *)

Lemma bdim_refl n : np.bdim n n = Some n.
Proof. unfold np.bdim. by rewrite decide_True. Qed.

Lemma bshape_rev_refl r : np.bshape_rev r r = Some r.
Proof.
  induction r as [|n r IH]; [done|]. simpl. rewrite bdim_refl. simpl.
  by rewrite IH.
Qed.

Lemma broadcast_shapes_refl sh : np.broadcast_shapes sh sh = Some sh.
Proof.
  unfold np.broadcast_shapes. rewrite bshape_rev_refl. simpl.
  by rewrite reverse_involutive.
Qed.

Lemma bindex_id sh idx : np.in_bounds sh idx → np.bindex sh idx = idx.
Proof.
  intros Hb. unfold np.bindex. rewrite (in_bounds_length _ _ Hb), Nat.sub_diag.
  rewrite drop_0. unfold np.in_bounds in Hb.
  induction Hb as [|i n idx sh Hi _ IH]; [done|]. simpl. rewrite IH.
  destruct (decide (n = 1)); [f_equal; lia|done].
Qed.

(** Elementwise operations on two arrays of one shape. *)
Lemma map2_same_shape op a b :
  np.shape a = np.shape b →
  np.map2 op a b
  = Ok (np.build (np.shape a) (λ idx, op (np.get a idx) (np.get b idx))).
Proof.
  intros E. unfold np.map2. rewrite <- E, broadcast_shapes_refl. f_equal.
  apply build_ext. intros idx Hb. by rewrite bindex_id.
Qed.

Lemma iadd_same_shape a b :
  np.shape a = np.shape b →
  np.iadd a b
  = Ok (np.build (np.shape a) (λ idx, sadd (np.get a idx) (np.get b idx))).
Proof.
  intros E. unfold np.iadd. rewrite <- E, broadcast_shapes_refl.
  rewrite decide_True by done. by apply map2_same_shape.
Qed.

Lemma bdim_stretch (x d : nat) : stretches x d → np.bdim x d = Some d.
Proof.
  unfold np.bdim. intros [->| ->]; [by rewrite decide_True|].
  destruct (decide (1 = d)) as [<-|]; [done|]. by rewrite decide_True.
Qed.

Lemma bdim_stretch_r (x d : nat) : stretches x d → np.bdim d x = Some d.
Proof.
  unfold np.bdim. intros [->| ->]; [by rewrite decide_True|].
  destruct (decide (d = 1)) as [->|]; [done|].
  destruct (decide (d = 1)); [done|]. by rewrite decide_True.
Qed.

Lemma bshape_rev_nil_r r : np.bshape_rev r [] = Some r.
Proof. by destruct r. Qed.

Lemma bshape_rev_stretch r1 r2 rest :
  Forall2 stretches r1 r2 → np.bshape_rev r1 (r2 ++ rest) = Some (r2 ++ rest).
Proof.
  induction 1 as [|x d r1 r2 Had _ IH]; [done|]. simpl.
  rewrite (bdim_stretch _ _ Had). simpl. by rewrite IH.
Qed.

Lemma bshape_rev_stretch_r r1 r2 rest :
  Forall2 stretches r1 r2 → np.bshape_rev (r2 ++ rest) r1 = Some (r2 ++ rest).
Proof.
  induction 1 as [|x d r1 r2 Had _ IH]; [apply bshape_rev_nil_r|]. simpl.
  rewrite (bdim_stretch_r _ _ Had). simpl. by rewrite IH.
Qed.

(** An operand whose shape is, up to stretched dimensions, a suffix of a
    shape broadcasts to that shape. *)
Lemma broadcast_shapes_stretch s1 pre s2 :
  Forall2 stretches s1 s2 → np.broadcast_shapes s1 (pre ++ s2) = Some (pre ++ s2).
Proof.
  intros Hs. unfold np.broadcast_shapes. rewrite reverse_app.
  rewrite (bshape_rev_stretch _ _ _ (Forall2_reverse _ _ _ Hs)). simpl.
  by rewrite <- reverse_app, reverse_involutive.
Qed.

Lemma broadcast_shapes_stretch_r s1 pre s2 :
  Forall2 stretches s1 s2 → np.broadcast_shapes (pre ++ s2) s1 = Some (pre ++ s2).
Proof.
  intros Hs. unfold np.broadcast_shapes. rewrite reverse_app.
  rewrite (bshape_rev_stretch_r _ _ _ (Forall2_reverse _ _ _ Hs)). simpl.
  by rewrite <- reverse_app, reverse_involutive.
Qed.

Lemma broadcast_shapes_stretch0 s1 s2 :
  Forall2 stretches s1 s2 → np.broadcast_shapes s1 s2 = Some s2.
Proof. apply (broadcast_shapes_stretch s1 [] s2). Qed.

Lemma broadcast_shapes_stretch_r0 s1 s2 :
  Forall2 stretches s1 s2 → np.broadcast_shapes s2 s1 = Some s2.
Proof. apply (broadcast_shapes_stretch_r s1 [] s2). Qed.

Lemma broadcast_shapes_nil_r sh : np.broadcast_shapes sh [] = Some sh.
Proof.
  rewrite <- (app_nil_r sh) at 1 2. apply (broadcast_shapes_stretch_r [] sh []).
  constructor.
Qed.

Lemma stretches_insert_1 sh k : Forall2 stretches (<[k := 1]> sh) sh.
Proof.
  revert k. induction sh as [|n sh IH]; intros k; [constructor|].
  destruct k as [|k]; simpl.
  - constructor; [by right|]. apply Forall2_same_length_lookup_2; [done|].
    intros i x y Hx Hy. left. congruence.
  - constructor; [by left|apply IH].
Qed.

Lemma stretches_replicate_1 sh : Forall2 stretches (replicate (length sh) 1) sh.
Proof. induction sh; constructor; [by right|done]. Qed.

(** *** Indices under broadcasting *)

Lemma bindex_nil idx : np.bindex [] idx = [].
Proof. done. Qed.

Lemma bindex_same_length sh idx :
  length idx = length sh →
  np.bindex sh idx = zip_with (λ n i, if decide (n = 1) then 0 else i) sh idx.
Proof. intros E. unfold np.bindex. by rewrite E, Nat.sub_diag, drop_0. Qed.

Lemma bindex_insert_1 sh k idx :
  np.in_bounds sh idx → np.bindex (<[k := 1]> sh) idx = <[k := 0]> idx.
Proof.
  intros Hb. rewrite bindex_same_length
    by (by rewrite length_insert, (in_bounds_length _ _ Hb)).
  revert k. unfold np.in_bounds in Hb.
  induction Hb as [|i n idx sh Hi Hb IH]; intros k; [done|].
  destruct k as [|k]; simpl.
  - f_equal. rewrite <- (bindex_id sh idx Hb) at 2.
    by rewrite bindex_same_length by (by apply Forall2_length in Hb).
  - rewrite IH. destruct (decide (n = 1)); [f_equal; lia|done].
Qed.

Lemma bindex_replicate_1 idx :
  np.bindex (replicate (length idx) 1) idx = replicate (length idx) 0.
Proof.
  rewrite bindex_same_length by (by rewrite length_replicate).
  induction idx as [|i idx IH]; [done|]. simpl. by rewrite IH.
Qed.

Lemma size_of_insert_1 sh k :
  k < length sh → np.size_of (<[k := 1]> sh) = np.size_of (delete k sh).
Proof.
  revert k. induction sh as [|n sh IH]; intros k Hk; simpl in *; [lia|].
  destruct k as [|k]; simpl; [lia|]. fold (np.size_of (<[k := 1]> sh)).
  fold (np.size_of (delete k sh)). rewrite IH by lia. done.
Qed.

Lemma offset_expand sh idx k :
  length idx = length sh → k < length sh →
  np.offset (<[k := 1]> sh) (<[k := 0]> idx) = np.offset (delete k sh) (delete k idx).
Proof.
  revert sh idx. induction k as [|k IH]; intros [|n sh] [|i idx] Hl Hk;
    simpl in *; try lia.
  rewrite IH by lia. fold (np.size_of (<[k := 1]> sh)). fold (np.size_of (delete k sh)).
  by rewrite size_of_insert_1 by lia.
Qed.

Lemma take_drop_delete {A} (l : list A) (k : nat) (x : A) :
  k < length l → take k (delete k l) ++ x :: drop k (delete k l) = <[k := x]> l.
Proof.
  revert k. induction l as [|y l IH]; intros k Hk; simpl in *; [lia|].
  destruct k as [|k]; simpl; [by rewrite drop_0|]. f_equal. apply IH. lia.
Qed.

Lemma normalize_axis_lt n axis k : np.normalize_axis n axis = Ok k → k < n.
Proof.
  unfold np.normalize_axis. case_decide; [|done]. intros [= <-].
  case_decide; lia.
Qed.


Lemma bdim_inv (x y d : nat) : np.bdim x y = Some d → stretches x d ∧ stretches y d.
Proof.
  unfold np.bdim, stretches. repeat case_decide; intros [= <-]; subst; auto.
Qed.

Lemma Forall2_stretches_refl (r : list nat) : Forall2 stretches r r.
Proof. induction r; constructor; [by left|done]. Qed.

Lemma bshape_rev_inv (r1 r2 r : list nat) :
  np.bshape_rev r1 r2 = Some r →
  (∃ r' rest, r = r' ++ rest ∧ Forall2 stretches r1 r')
  ∧ (∃ r' rest, r = r' ++ rest ∧ Forall2 stretches r2 r').
Proof.
  revert r2 r. induction r1 as [|x r1 IH]; intros [|y r2] r; simpl.
  - intros [= <-]. split; exists [], []; split; done || constructor.
  - intros [= <-]. split.
    + exists [], (y :: r2). split; [done|constructor].
    + exists (y :: r2), []. split; [by rewrite app_nil_r|apply Forall2_stretches_refl].
  - intros [= <-]. split.
    + exists (x :: r1), []. split; [by rewrite app_nil_r|apply Forall2_stretches_refl].
    + exists [], (x :: r1). split; [done|constructor].
  - destruct (np.bdim x y) as [d|] eqn:Ed; [|done]. simpl.
    destruct (np.bshape_rev r1 r2) as [r0|] eqn:E0; [|done]. simpl.
    intros [= <-]. apply bdim_inv in Ed as [Hx Hy].
    destruct (IH _ _ E0) as [(ra & resta & -> & Ha) (rb & restb & Eb & Hb)]. split.
    + exists (d :: ra), resta. split; [done|by constructor].
    + exists (d :: rb), restb. split; [by rewrite Eb|by constructor].
Qed.

(** Both operands of a broadcast stretch to its result. *)
Lemma broadcast_shapes_inv (s1 s2 S : list nat) :
  np.broadcast_shapes s1 s2 = Some S → broadcasts_to s1 S ∧ broadcasts_to s2 S.
Proof.
  unfold np.broadcast_shapes.
  destruct (np.bshape_rev (reverse s1) (reverse s2)) as [r|] eqn:E; [|done].
  simpl. intros [= <-].
  destruct (bshape_rev_inv _ _ _ E) as [(ra & resta & -> & Ha) (rb & restb & Eb & Hb)].
  split.
  - exists (reverse resta), (reverse ra). split; [by rewrite reverse_app|].
    rewrite <- (reverse_involutive s1). by apply Forall2_reverse.
  - exists (reverse restb), (reverse rb). split; [by rewrite Eb, reverse_app|].
    rewrite <- (reverse_involutive s2). by apply Forall2_reverse.
Qed.

Lemma broadcasts_to_shapes (sh S : list nat) :
  broadcasts_to sh S → np.broadcast_shapes sh S = Some S.
Proof. intros (pre & S' & -> & Hst). by apply broadcast_shapes_stretch. Qed.

(** [x * dOut] for a [dOut] of the shape [x] broadcasts to. *)
Lemma multiply_into (x dOut : np.ndarray F) :
  broadcasts_to (np.shape x) (np.shape dOut) →
  np.multiply x dOut
  = Ok (np.build (np.shape dOut)
          (λ idx, smul (np.get x (np.bindex (np.shape x) idx)) (np.get dOut idx))).
Proof.
  intros Hb. unfold np.multiply, np.map2. rewrite (broadcasts_to_shapes _ _ Hb).
  f_equal. apply build_ext. intros idx Hidx. by rewrite (bindex_id _ _ Hidx).
Qed.
End ndarray_facts.

(** ** [Tensor.backward]: seed, order of the closures *)

Section backward_facts.
Context {F : Type} `{Scalar F} `{NumpyCompat}.
Implicit Types (s : State F) (t : Tensor F) (h : list (Tensor F)).

Lemma children_set_grad h r t g v :
  h !! r = Some t → children (<[r := set_grad g t]> h) v = children h v.
Proof.
  intros Hr. unfold children. destruct (decide (r = v)) as [<-|Hne].
  - rewrite list_lookup_insert_eq by (by eapply lookup_lt_Some). by rewrite Hr.
  - by rewrite list_lookup_insert_ne.
Qed.

Lemma reachable_ext h h' a b :
  (∀ v, children h' v = children h v) → reachable h a b → reachable h' a b.
Proof.
  intros Hch. induction 1 as [|u c _ IH Hc]; [constructor|].
  eapply reach_child; [done|]. unfold consumes. by rewrite Hch.
Qed.

Lemma seed_spec s self t :
  heap s !! self = Some t →
  seed self s
  = (Ok (), set_heap (<[self := set_grad (Some (np.ones_like (data t))) t]> (heap s)) s).
Proof. intros Ht. unfold seed. by rewrite (update_Some _ _ _ _ Ht). Qed.

Lemma backward_unfold s self t :
  heap s !! self = Some t → requires_grad t = true →
  backward self s
  = let s1 := set_heap (<[self := set_grad (Some (np.ones_like (data t))) t]> (heap s)) s in
    match topo_order (heap s1) self with
    | Some topo => run_all (reverse topo) s1
    | None => (Raise RecursionError, s1)
    end.
Proof.
  intros Ht Hrg. unfold backward.
  rewrite (bind_Ok _ _ _ _ _ (load_Some _ _ _ Ht)). rewrite Hrg. simpl.
  by rewrite (bind_Ok _ _ _ _ _ (seed_spec _ _ _ Ht)).
Qed.


(** The schedule of [backward]: the seeded state, and the order in which
    the closures are called. *)
Lemma backward_schedule s self t :
  heap_wf (heap s) → heap s !! self = Some t → requires_grad t = true →
  ∃ topo s1,
    seed self s = (Ok (), s1)
    ∧ heap s1 = <[self := set_grad (Some (np.ones_like (data t))) t]> (heap s)
    ∧ backward self s = run_all (reverse topo) s1
    ∧ NoDup topo
    ∧ (∀ x, x ∈ topo ↔ reachable (heap s) self x)
    ∧ postordered (heap s) ∅ topo
    ∧ last topo = Some self.
Proof.
  intros Hwf Ht Hrg.
  set (h1 := <[self := set_grad (Some (np.ones_like (data t))) t]> (heap s)).
  assert (Hch : ∀ v, children h1 v = children (heap s) v).
  { intros v. by apply children_set_grad. }
  assert (Hwf1 : heap_wf h1).
  { intros v c. unfold consumes. rewrite Hch. apply Hwf. }
  destruct (topo_order_spec h1 Hwf1 self) as (topo & E & ND & R & PO & L).
  { unfold h1. rewrite length_insert. by eapply lookup_lt_Some. }
  exists topo, (set_heap h1 s). split_and!; try done.
  - by apply seed_spec.
  - rewrite (backward_unfold _ _ _ Ht Hrg). simpl. fold h1. by rewrite E.
  - intros x. rewrite R. split; apply reachable_ext; [done|].
    intros v. by rewrite Hch.
  - intros i x c Hi Hc. apply (PO i x c Hi). unfold consumes. by rewrite Hch.
Qed.


(** C8. Whatever the shape of a tensor that requires gradients, [backward]
    first replaces its [grad] by an array of ones of the shape of its data
    and touches no other object; if the store is built forward, the
    closures are then called in a state where this is still so, and the
    first one called is the root's own.  No shape is tested, so a root that
    is not a scalar is seeded as well. *)
Theorem backward_seeds_ones s self t :
  heap_wf (heap s) → heap s !! self = Some t → requires_grad t = true →
  ∃ s1 rest,
    seed self s = (Ok (), s1)
    ∧ heap s1 !! self = Some (set_grad (Some (np.ones_like (data t))) t)
    ∧ np.shape (np.ones_like (data t)) = np.shape (data t)
    ∧ np.buf (np.ones_like (data t)) = replicate (np.size (data t)) sone
    ∧ (∀ r, r ≠ self → heap s1 !! r = heap s !! r)
    ∧ NoGrad_enabled s1 = NoGrad_enabled s
    ∧ backward self s = run_all (self :: rest) s1.
Proof.
  intros Hwf Ht Hrg.
  destruct (backward_schedule s self t Hwf Ht Hrg)
    as (topo & s1 & Hseed & Hh1 & Hrun & _ & _ & _ & L).
  apply last_Some in L as [l' ->].
  exists s1, (reverse l'). split_and!.
  - done.
  - rewrite Hh1. apply list_lookup_insert_eq. by eapply lookup_lt_Some.
  - apply ones_like_spec.
  - apply ones_like_spec.
  - intros r Hr. rewrite Hh1. by apply list_lookup_insert_ne.
  - rewrite (seed_spec _ _ _ Ht) in Hseed. by injection Hseed as <-.
  - by rewrite Hrun, reverse_app.
Qed.
End backward_facts.

(** ** The operators *)

Section operators.
Context {F : Type} `{Scalar F} `{NumpyCompat}.
Implicit Types (s : State F) (t : Tensor F) (other : pyobj F).

Lemma init_spec d ch rg s :
  __init__ d ch rg s
  = (Ok (length (heap s)), set_heap (heap s ++ [new_node d ch rg BNone s]) s).
Proof. done. Qed.

(** The three steps every operator ends with: build the node, attach the
    closure, hand the node on. *)
Lemma construct_spec {B} d ch rg (clo : ref → closure F) (k : ref → M F B) s :
  (out <- __init__ d ch rg;; update out (set_backward (clo out));; k out) s
  = k (length (heap s))
      (set_heap (heap s ++ [new_node d ch rg (clo (length (heap s))) s]) s).
Proof.
  unfold bind at 1. rewrite init_spec. unfold bind, update. simpl.
  rewrite lookup_snoc. simpl. by rewrite insert_snoc.
Qed.

Lemma as_tensor_spec other s :
  as_tensor other s = (Ok (operand_ref other s), wrapped other s).
Proof. by destruct other. Qed.

Lemma bind_Ok_inv {A B} (m : M F A) (k : A → M F B) s b s' :
  bind m k s = (Ok b, s') → ∃ a s1, m s = (Ok a, s1) ∧ k a s1 = (Ok b, s').
Proof. intros [?|(e & _ & ?)]%bind_inv; [done|congruence]. Qed.

Lemma load_Ok_inv r s t s' :
  load r s = (Ok t, s') → s' = s ∧ heap s !! r = Some t.
Proof. unfold load. destruct (heap s !! r); intros [= <- <-]; done. Qed.

Lemma lift_Ok_inv {A} (x : result A) s a s' :
  lift (F:=F) x s = (Ok a, s') → s' = s ∧ x = Ok a.
Proof. by intros [= -> <-]. Qed.

Lemma lookup_wrapped other s r t :
  heap s !! r = Some t → heap (wrapped other s) !! r = Some t.
Proof.
  intros Hr. destruct other; simpl; try done; by apply lookup_app_l_Some.
Qed.


End operators.

Ltac inv_Ok :=
  repeat match goal with
  | H : bind (__init__ _ _ _) _ _ = _ |- _ => rewrite construct_spec in H
  | H : bind (as_tensor _) _ _ = _ |- _ =>
      rewrite (bind_Ok _ _ _ _ _ (as_tensor_spec _ _)) in H
  | H : bind _ _ _ = (Ok _, _) |- _ =>
      let a := fresh "a" in let s1 := fresh "s" in let Ha := fresh "Ha" in
      apply bind_Ok_inv in H as (a & s1 & Ha & H)
  | H : load _ _ = (Ok _, _) |- _ => apply load_Ok_inv in H as [-> H]
  | H : lift _ _ = (Ok _, _) |- _ => apply lift_Ok_inv in H as [-> H]
  | H : ret _ _ = (Ok _, _) |- _ => injection H as <- <-
  | H : raise _ _ = (Ok _, _) |- _ => discriminate H
  end.

Section operator_facts.
Context {F : Type} `{Scalar F} `{NumpyCompat}.
Implicit Types (s : State F) (t : Tensor F) (other : pyobj F).

Lemma mul_Ok_inv self other s out s' :
  __mul__ self other s = (Ok out, s') →
  ∃ ts to d,
    heap (wrapped other s) !! self = Some ts
    ∧ heap (wrapped other s) !! operand_ref other s = Some to
    ∧ np.multiply (data ts) (data to) = Ok d
    ∧ out = length (heap (wrapped other s))
    ∧ s' = set_heap (heap (wrapped other s)
                     ++ [new_node d [self; operand_ref other s]
                           (requires_grad ts || requires_grad to)
                           (BMul self (operand_ref other s) out) (wrapped other s)])
                    (wrapped other s).
Proof.
  unfold __mul__. intros Hm. inv_Ok. eauto 10.
Qed.

Lemma matmul_Ok_inv self other s out s' :
  __matmul__ self other s = (Ok out, s') →
  ∃ o ts to d,
    other = PyTensor o
    ∧ heap s !! self = Some ts
    ∧ heap s !! o = Some to
    ∧ np.matmul (data ts) (data to) = Ok d
    ∧ out = length (heap s)
    ∧ s' = set_heap (heap s ++ [new_node d [self; o]
                                  (requires_grad ts || requires_grad to)
                                  (BMatmul self o out) s]) s.
Proof.
  unfold __matmul__. destruct other as [c|a|o]; intros Hm; inv_Ok. eauto 10.
Qed.

Lemma pow_Ok_inv self other s out s' :
  __pow__ self other s = (Ok out, s') →
  ∃ c ts d,
    other = PyNum c
    ∧ heap s !! self = Some ts
    ∧ np.power (data ts) (np.scalar c) = Ok d
    ∧ out = length (heap s)
    ∧ s' = set_heap (heap s ++ [new_node d [self] (requires_grad ts)
                                  (BPow self out c) s]) s.
Proof.
  unfold __pow__. destruct other as [c|a|o]; intros Hm; inv_Ok. eauto 10.
Qed.

Lemma max_Ok_inv self dim keepdims s out s' :
  max self dim keepdims s = (Ok out, s') →
  ∃ ts d,
    heap s !! self = Some ts
    ∧ np.max (data ts) dim keepdims = Ok d
    ∧ out = length (heap s)
    ∧ s' = set_heap (heap s ++ [new_node d [self] (requires_grad ts)
                                  (BMax self out) s]) s.
Proof. unfold max. intros Hm. inv_Ok. eauto 10. Qed.

Lemma sum_Ok_inv self dim keepdims s out s' :
  sum self dim keepdims s = (Ok out, s') →
  ∃ ts d,
    heap s !! self = Some ts
    ∧ np.sum (data ts) dim keepdims = Ok d
    ∧ out = length (heap s)
    ∧ s' = set_heap (heap s ++ [new_node d [self] (requires_grad ts)
                                  (BSum self out dim keepdims) s]) s.
Proof. unfold sum. intros Hm. inv_Ok. eauto 10. Qed.

Lemma add_Ok_inv self other s out s' :
  deeplib_add self other s = (Ok out, s') →
  ∃ ts to d,
    heap (wrapped other s) !! self = Some ts
    ∧ heap (wrapped other s) !! operand_ref other s = Some to
    ∧ np.add (data ts) (data to) = Ok d
    ∧ out = length (heap (wrapped other s))
    ∧ s' = set_heap (heap (wrapped other s)
                     ++ [new_node d [self; operand_ref other s]
                           (requires_grad ts || requires_grad to)
                           (BAdd self (operand_ref other s) out) (wrapped other s)])
                    (wrapped other s).
Proof.
  unfold deeplib_add. intros Hm. inv_Ok. eauto 10.
Qed.



Lemma py_pow_neg1_Ok_inv other s o s1 :
  py_pow_neg1 other s = (Ok o, s1) →
  match other with
  | PyTensor r =>
      ∃ tr d, heap s !! r = Some tr
        ∧ o = PyTensor (length (heap s))
        ∧ s1 = set_heap (heap s ++ [new_node d [r] (requires_grad tr)
                                      (BPow r (length (heap s)) (of_Z (-1))) s]) s
  | _ => s1 = s ∧ ∀ r, o ≠ PyTensor r
  end.
Proof.
  unfold py_pow_neg1. destruct other as [c|a|r]; intros Hm.
  - by injection Hm as <- <-.
  - apply bind_Ok_inv in Hm as (a' & s2 & [-> _]%lift_Ok_inv & Hm).
    by injection Hm as <- <-.
  - apply bind_Ok_inv in Hm as (o' & s2 & Hpow & Hm). injection Hm as <- <-.
    apply pow_Ok_inv in Hpow as (c & tr & d & [= <-] & Hr & _ & -> & ->). eauto 10.
Qed.





End operator_facts.

(** ** Operators and the nodes that exist already *)

Section operator_frames.
Context {F : Type} `{Scalar F} `{NumpyCompat}.
Implicit Types (s : State F) (t : Tensor F) (other : pyobj F).

#[export] Instance extends_refl : Reflexive (extends (F:=F)).
Proof. by intros s. Qed.

#[export] Instance extends_trans : Transitive (extends (F:=F)).
Proof.
  intros s1 s2 s3 (P12 & E12 & G12) (P23 & E23 & G23).
  split_and!; [by etrans|congruence|congruence].
Qed.

Lemma extends_snoc s t : extends s (set_heap (heap s ++ [t]) s).
Proof. split; [|done]. by apply prefix_app_r. Qed.

Lemma extends_lookup s s' r t :
  extends s s' → heap s !! r = Some t → heap s' !! r = Some t.
Proof. intros (P & _) Hr. by eapply prefix_lookup_Some. Qed.

Lemma init_extends d ch rg : preserves extends (__init__ (F:=F) d ch rg).
Proof. intros s res s'. rewrite init_spec. intros [= <- <-]. apply extends_snoc. Qed.

Lemma construct_extends d ch rg (clo : ref → closure F) :
  preserves extends
    (out <- __init__ d ch rg;; update out (set_backward (clo out));; ret out).
Proof. intros s res s'. rewrite construct_spec. intros [= <- <-]. apply extends_snoc. Qed.

Lemma as_tensor_extends other : preserves extends (as_tensor other).
Proof.
  intros s res s'. rewrite as_tensor_spec. intros [= <- <-].
  destruct other; [apply extends_snoc..|done].
Qed.

Lemma atomic_pure {A} (m : M F A) : preserves eq m → atomic m.
Proof. intros Hm s e s' E. symmetry. by eapply Hm. Qed.

Lemma atomic_bind {A B} (m : M F A) (k : A → M F B) :
  preserves eq m → (∀ a, atomic (k a)) → atomic (bind m k).
Proof.
  intros Hm Hk s e s' [(a & s1 & Ha & Hb)|(e' & He & _)]%bind_inv.
  - apply Hm in Ha. subst s1. by eapply Hk.
  - symmetry. by eapply Hm.
Qed.

Lemma atomic_construct d ch rg (clo : ref → closure F) :
  atomic (out <- __init__ d ch rg;; update out (set_backward (clo out));; ret out).
Proof. intros s e s'. by rewrite construct_spec. Qed.
End operator_frames.

Ltac extends_step :=
  first [ apply construct_extends | apply as_tensor_extends | preserves_step ].

Ltac atomic_step :=
  first
    [ apply atomic_construct
    | match goal with
      | |- atomic (match ?x with _ => _ end) => destruct x
      end
    | apply atomic_bind; [solve [repeat preserves_step]|intros ?]
    | apply atomic_pure; solve [repeat preserves_step] ].

Section operator_frames2.
Context {F : Type} `{Scalar F} `{NumpyCompat}.
Implicit Types (s : State F) (t : Tensor F) (other : pyobj F).

Lemma mul_extends self other : preserves extends (__mul__ self other).
Proof. unfold __mul__. repeat extends_step. Qed.

Lemma pow_extends self other : preserves extends (__pow__ self other).
Proof. unfold __pow__. repeat extends_step. Qed.

Lemma add_extends self other : preserves extends (deeplib_add self other).
Proof. unfold deeplib_add. repeat extends_step. Qed.

Lemma eval_extends (c : call) : preserves extends (eval c).
Proof.
  destruct c; simpl;
    unfold __rmul__, __neg__, __truediv__, py_pow_neg1, __matmul__, max, sum;
    repeat first [ apply mul_extends | apply pow_extends | extends_step ].
Qed.

Lemma eval_atomic (c : call) : single_node c = true → atomic (eval c).
Proof.
  destruct c as [self [| |o]|self [| |o]| | |self other|self other| |]; try done;
    intros _; simpl; unfold __rmul__, __mul__, __matmul__, __pow__, max, sum, as_tensor;
    repeat atomic_step.
Qed.

(** C9, as amended.  Whatever its outcome, an operator call leaves every
    node that existed before it as it was (data, grad, parents,
    requires_grad and closure alike) and does not touch the no-grad state;
    and a call that builds a single node from tensor operands (multiply of
    two tensors, matmul, power, max, sum) that raises leaves the state
    exactly as it was, no node having been created. *)
Theorem operator_calls_leave_existing_nodes_unchanged (c : call) (s : State F) :
  (∀ r t, heap s !! r = Some t → heap (eval c s).2 !! r = Some t)
  ∧ NoGrad_enabled (eval c s).2 = NoGrad_enabled s
  ∧ guards (eval c s).2 = guards s
  ∧ (single_node c = true → ∀ e, (eval c s).1 = Raise e → (eval c s).2 = s).
Proof.
  destruct (eval c s) as [res s'] eqn:E. simpl.
  pose proof (eval_extends c s res s' E) as Hext.
  split_and!.
  - intros r t. by apply extends_lookup.
  - apply Hext.
  - apply Hext.
  - intros Hc e ->. by eapply eval_atomic.
Qed.

(** C10. The statement [x += other], for [x] bound to a tensor [a]:
    whatever the outcome, every node that existed, [a] among them, is left
    as it was; and when it succeeds, [x] is bound to the node [a + other]
    returns, a node that did not exist before, whose data is the sum of the
    operands' data, while the other names keep their bindings. *)
Theorem iadd_rebinds_to_a_fresh_node (x : string) other
    (env : gmap string ref) s (a : ref) ta :
  env !! x = Some a → heap s !! a = Some ta →
  (∀ r t, heap s !! r = Some t → heap (aug_assign_add x other env s).2 !! r = Some t)
  ∧ heap (aug_assign_add x other env s).2 !! a = Some ta
  ∧ (∀ env', (aug_assign_add x other env s).1 = Ok env' →
       ∃ out tout to d,
         __add__ a other s = (Ok out, (aug_assign_add x other env s).2)
         ∧ env' = <[x := out]> env
         ∧ (∀ y, y ≠ x → env' !! y = env !! y)
         ∧ length (heap s) ≤ out
         ∧ heap (aug_assign_add x other env s).2 !! out = Some tout
         ∧ heap (wrapped other s) !! operand_ref other s = Some to
         ∧ np.add (data ta) (data to) = Ok d
         ∧ data tout = d
         ∧ _children tout = remove_dups [a; operand_ref other s]).
Proof.
  intros Hx Ha. unfold aug_assign_add. rewrite Hx. unfold __iadd__, __add__.
  destruct (deeplib_add a other s) as [[out|e] s'] eqn:E.
  - rewrite (bind_Ok _ _ _ _ _ E). simpl.
    pose proof (add_extends _ _ _ _ _ E) as Hext.
    split_and!.
    + intros r t. by apply extends_lookup.
    + by eapply extends_lookup.
    + intros env' [= <-].
      apply add_Ok_inv in E as (ts & to & d & Hts & Hto & Hd & -> & ->).
      rewrite (lookup_wrapped other _ _ _ Ha) in Hts. injection Hts as <-.
      eexists _, _, to, d. split_and!; [done|done| | |apply lookup_snoc|done..].
      * intros y Hy. by rewrite lookup_insert_ne.
      * destruct other; simpl; rewrite ?length_app; lia.
  - rewrite (bind_Raise _ _ _ _ _ E). simpl.
    pose proof (add_extends _ _ _ _ _ E) as Hext.
    split_and!; [|by eapply extends_lookup|done].
    intros r t. by apply extends_lookup.
Qed.
End operator_frames2.

(** The claim C9 as first stated fails on a division: [a / b] is
    [a * b**-1], and when the shapes of [a] and [b] do not broadcast the
    multiplication raises after [b**-1] has been built. *)
Lemma truediv_raises_after_building_a_node :
  (eval (CTruediv 0 (PyTensor 1)) two_vectors).1 = Raise ValueError
  ∧ length (heap (eval (CTruediv 0 (PyTensor 1)) two_vectors).2)
    = S (length (heap two_vectors))
  ∧ (_children <$> heap (eval (CTruediv 0 (PyTensor 1)) two_vectors).2 !! 2) = Some [1]
  ∧ (_backward <$> heap (eval (CTruediv 0 (PyTensor 1)) two_vectors).2 !! 2)
    = Some (BPow 1 2 (-1)%Z).
Proof. by vm_compute. Qed.

(** ** The gradient rule of [sum] *)

Section sum_rule.
Context {F : Type} `{Scalar F} `{NumpyCompat}.
Implicit Types (s : State F) (t : Tensor F).

Lemma broadcast_to_unit_axis (sh : list nat) (k : nat) (buf : list F) :
  np.broadcast_to (np.mk (<[k := 1]> sh) buf) sh
  = Ok (np.build sh (λ idx, np.get (np.mk (<[k := 1]> sh) buf) (<[k := 0]> idx))).
Proof.
  unfold np.broadcast_to. simpl.
  rewrite (broadcast_shapes_stretch0 _ _ (stretches_insert_1 _ _)). simpl.
  rewrite decide_True by done. f_equal. apply build_ext.
  intros idx Hb. by rewrite (bindex_insert_1 _ _ _ Hb).
Qed.

(** The gradient [sum._backward] hands to [self.grad +=]: the incoming
    gradient read back at the reduced position of every element. *)
Lemma sum_upstream (dim : option Z) (keepdims : bool) (k : option nat)
    (da dOut : np.ndarray F) :
  (∀ x : F, smul sone x = x) →
  normalized_dim (np.ndim da) dim = Ok k →
  np.shape dOut = reduced_shape k keepdims (np.shape da) →
  match dim with
  | None => np.multiply (np.ones_like da) dOut
  | Some axis =>
      g ← (if keepdims then Ok dOut else np.expand_dims dOut axis);
      np.broadcast_to g (np.shape da)
  end
  = Ok (np.build (np.shape da) (λ idx, np.get dOut (reduced_index k keepdims idx))).
Proof.
  intros Hone Hk Hsh. destruct dim as [axis|]; simpl in Hk.
  - destruct (np.normalize_axis (np.ndim da) axis) as [k'|] eqn:Hax; [|done].
    injection Hk as <-. pose proof (normalize_axis_lt _ _ _ Hax) as Hlt.
    unfold np.ndim in Hlt.
    pose proof (broadcast_to_unit_axis (np.shape da) k') as Hbc.
    destruct keepdims; simpl in Hsh |- *.
    + destruct dOut as [sh' buf]. simpl in Hsh. subst sh'. by rewrite Hbc.
    + unfold np.expand_dims.
      assert (Hnd : S (np.ndim dOut) = np.ndim da).
      { unfold np.ndim. rewrite Hsh, length_delete by (by apply lookup_lt_is_Some_2).
        lia. }
      rewrite Hnd, Hax. simpl. rewrite Hsh, take_drop_delete by done.
      rewrite Hbc. f_equal. apply build_ext. intros idx Hb.
      unfold np.get. simpl. rewrite Hsh.
      by rewrite offset_expand by (by rewrite ?(in_bounds_length _ _ Hb)).
  - injection Hk as <-. unfold np.multiply, np.map2. simpl.
    assert (Hbs : np.broadcast_shapes (np.shape da) (np.shape dOut) = Some (np.shape da)).
    { rewrite Hsh. destruct keepdims; simpl.
      - apply (broadcast_shapes_stretch_r0 _ _ (stretches_replicate_1 _)).
      - apply broadcast_shapes_nil_r. }
    rewrite Hbs. f_equal. apply build_ext. intros idx Hb.
    rewrite (bindex_id _ _ Hb).
    unfold np.ones_like at 1. rewrite (get_build _ _ _ Hb), Hone, Hsh.
    destruct keepdims; simpl; [|done].
    by rewrite <- (in_bounds_length _ _ Hb), bindex_replicate_1.
Qed.

(** [self.grad += x] for an [x] of the shape of [self.grad]. *)
Lemma accumulate_spec s (a : ref) ta (g x : np.ndarray F) :
  heap s !! a = Some ta → grad ta = Some g → np.shape x = np.shape g →
  accumulate a x s
  = (Ok (), set_heap (<[a := set_grad (Some (np.build (np.shape g)
                            (λ idx, sadd (np.get g idx) (np.get x idx)))) ta]> (heap s)) s).
Proof.
  intros Ha Hg Hx. unfold accumulate.
  rewrite (bind_Ok _ _ _ _ _ (load_Some _ _ _ Ha)), Hg. simpl.
  erewrite bind_Ok; [|reflexivity]. rewrite iadd_same_shape by done.
  erewrite bind_Ok; [|reflexivity]. by rewrite (update_Some _ _ _ _ Ha).
Qed.

(** The closure of [sum] adds to every element of [self.grad] the element
    of the incoming gradient at its reduced position. *)
Lemma sum_backward_rule s (a o : ref) ta tout (g dOut : np.ndarray F)
    (dim : option Z) (keepdims : bool) (k : option nat) :
  (∀ x : F, smul sone x = x) →
  heap s !! a = Some ta → heap s !! o = Some tout →
  requires_grad ta = true → shape ta = np.shape (data ta) →
  grad ta = Some g → np.shape g = np.shape (data ta) →
  normalized_dim (np.ndim (data ta)) dim = Ok k →
  grad tout = Some dOut →
  np.shape dOut = reduced_shape k keepdims (np.shape (data ta)) →
  run_closure (BSum a o dim keepdims) s
  = (Ok (), set_heap (<[a := set_grad (Some (np.build (np.shape (data ta))
        (λ idx, sadd (np.get g idx)
                     (np.get dOut (reduced_index k keepdims idx))))) ta]> (heap s)) s).
Proof.
  intros Hone Ha Ho Hrg Hshape Hg Hgsh Hk HdOut Hsh.
  unfold run_closure, when_requires_grad.
  rewrite (bind_Ok _ _ _ _ _ (load_Some _ _ _ Ha)), Hrg.
  rewrite (bind_Ok _ _ _ _ _ (load_Some _ _ _ Ha)).
  rewrite (bind_Ok _ _ _ _ _ (load_Some _ _ _ Ho)), HdOut.
  rewrite Hshape, (sum_upstream dim keepdims k _ _ Hone Hk Hsh).
  erewrite bind_Ok; [|reflexivity].
  rewrite (accumulate_spec _ _ _ g _ Ha Hg) by (by rewrite Hgsh).
  rewrite Hgsh. do 5 f_equal. apply build_ext. intros idx Hb.
  by rewrite (get_build _ _ _ Hb).
Qed.
End sum_rule.

(** C6. The closure of [sum(dim, keepdims)] adds into the operand's
    gradient, element by element, the incoming gradient read at the
    position the element was reduced into, that is, the incoming gradient
    broadcast back over the reduced dimensions.  And on every (2,3) tensor
    that requires gradients, [sum(dim=0)] followed by [backward] on the
    (3,)-shaped result succeeds and leaves a gradient of shape (2,3) whose
    six entries are 1. *)
Theorem sum_backward_broadcasts_gradient :
  (∀ (F : Type) (SF : Scalar F) (compat : NumpyCompat) (s : State F) (a o : ref)
     (ta tout : Tensor F) (g dOut : np.ndarray F) (dim : option Z)
     (keepdims : bool) (k : option nat),
     (∀ x : F, smul sone x = x) →
     heap s !! a = Some ta → heap s !! o = Some tout →
     requires_grad ta = true → shape ta = np.shape (data ta) →
     grad ta = Some g → np.shape g = np.shape (data ta) →
     normalized_dim (np.ndim (data ta)) dim = Ok k →
     grad tout = Some dOut →
     np.shape dOut = reduced_shape k keepdims (np.shape (data ta)) →
     run_closure (BSum a o dim keepdims) s
     = (Ok (), set_heap (<[a := set_grad (Some (np.build (np.shape (data ta))
           (λ idx, sadd (np.get g idx)
                        (np.get dOut (reduced_index k keepdims idx))))) ta]> (heap s)) s))
  ∧ (∀ (compat : NumpyCompat) (x11 x12 x13 x21 x22 x23 : Z),
       let run := sum_dim0_backward [x11; x12; x13; x21; x22; x23] fresh_state in
       run.1 = Ok ()
       ∧ (np.shape ∘ data <$> heap run.2 !! 1) = Some [3]
       ∧ (grad <$> heap run.2 !! 0)
         = Some (Some (np.mk [2; 3] [1; 1; 1; 1; 1; 1]%Z))).
Proof.
  split.
  - intros. by eapply sum_backward_rule.
  - intros compat x11 x12 x13 x21 x22 x23. by vm_compute.
Qed.

(** ** The gradient rule of [__mul__] *)

Section reduce_facts.
Context {F : Type} `{Scalar F}.
Implicit Types (g : np.ndarray F) (sh : list nat).

Lemma normalize_axis_nat n (i : nat) :
  i < n → np.normalize_axis n (Z.of_nat i) = Ok i.
Proof.
  intros Hi. unfold np.normalize_axis. rewrite decide_True by lia.
  rewrite decide_False by lia. by rewrite Nat2Z.id.
Qed.

Lemma sum_axis g (i : nat) (keepdims : bool) :
  i < np.ndim g →
  np.sum g (Some (Z.of_nat i)) keepdims = Ok (np.reduce_axis np.sum_list i keepdims g).
Proof. intros Hi. unfold np.sum. by rewrite normalize_axis_nat. Qed.

Lemma reduce_axis_wf f i keepdims g : np.wf (np.reduce_axis (F:=F) f i keepdims g).
Proof. unfold np.reduce_axis. destruct keepdims; apply build_wf. Qed.

Lemma sum_Ok_wf g dim keepdims g' : np.sum g dim keepdims = Ok g' → np.wf g'.
Proof.
  unfold np.sum. destruct dim as [axis|].
  - destruct (np.normalize_axis (np.ndim g) axis); [|done]. intros [= <-].
    apply reduce_axis_wf.
  - intros [= <-]. unfold np.wf, np.reduce_all. simpl.
    destruct keepdims; [|done]. unfold np.ndim.
    induction (np.shape g) as [|n sh IH]; [done|]. simpl. fold (np.size_of (replicate (length sh) 1)).
    lia.
Qed.

(** Summing a dimension of size 1, the dimension kept, changes nothing. *)
Lemma sum_unit_axis g (i : nat) :
  np.wf g → np.shape g !! i = Some 1 →
  np.sum g (Some (Z.of_nat i)) true = Ok g.
Proof.
  intros Hwf Hi. rewrite sum_axis by (by eapply lookup_lt_Some).
  f_equal. unfold np.reduce_axis. rewrite Hi. simpl.
  rewrite list_insert_id by done.
  transitivity (np.build (np.shape g) (np.get g)); [|by apply build_get].
  apply build_ext. intros idx Hb. simpl.
  f_equal. apply list_insert_id.
  unfold np.in_bounds in Hb.
  destruct (Forall2_lookup_r _ _ _ _ _ Hb Hi) as (j & Hj & Hlt).
  rewrite Hj. f_equal. lia.
Qed.

Lemma sum_leading_axis g :
  0 < np.ndim g →
  np.sum g (Some 0%Z) false = Ok (np.reduce_axis np.sum_list 0 false g)
  ∧ np.shape (np.reduce_axis np.sum_list 0 false g) = drop 1 (np.shape g).
Proof.
  intros Hn. split; [by apply (sum_axis g 0 false)|].
  unfold np.reduce_axis. simpl. by destruct (np.shape g).
Qed.

(** The [while] loop is the count the spec gives. *)
Lemma sum_leading_spec fuel n g :
  np.ndim g ≤ fuel → sum_leading fuel n g = spec_sum_extra (np.ndim g - n) g.
Proof.
  revert g. induction fuel as [|fuel IH]; intros g Hfuel.
  - by replace (np.ndim g - n) with 0 by lia.
  - cbn [sum_leading]. destruct (decide (n < np.ndim g)) as [Hlt|Hge].
    + destruct (sum_leading_axis g) as [E Esh]; [lia|].
      assert (Hnd : np.ndim (np.reduce_axis np.sum_list 0 false g) = np.ndim g - 1).
      { unfold np.ndim. rewrite Esh, length_drop. done. }
      replace (np.ndim g - n) with (S (np.ndim g - 1 - n)) by lia.
      cbn [spec_sum_extra]. rewrite E. cbn [mbind result_bind].
      rewrite IH by lia. by rewrite Hnd.
    + by replace (np.ndim g - n) with 0 by lia.
Qed.

Lemma spec_sum_extra_wf extra g g' :
  np.wf g → spec_sum_extra extra g = Ok g' → np.wf g'.
Proof.
  revert g. induction extra as [|extra IH]; intros g Hwf; cbn [spec_sum_extra].
  - by intros [= <-].
  - destruct (np.sum g (Some 0%Z) false) as [g1|] eqn:E; [|done].
    cbn [mbind result_bind]. apply IH. by eapply sum_Ok_wf.
Qed.

(** The [for] loop sums the dimensions the spec names, and besides them
    only dimensions of size 1, which does nothing. *)
Lemma sum_unit_dims_spec i dims g :
  np.wf g → sum_unit_dims i dims g = spec_sum_stretched i dims g.
Proof.
  revert i g. induction dims as [|d dims IH]; intros i g Hwf; [done|].
  cbn [sum_unit_dims spec_sum_stretched].
  destruct (decide (d = 1)) as [->|Hd].
  - destruct (decide (np.shape g !! i = Some 1)) as [Hi|Hi].
    + rewrite (sum_unit_axis g i Hwf Hi). rewrite decide_False by tauto.
      cbn [mbind result_bind]. by apply IH.
    + rewrite decide_True by done.
      destruct (np.sum g (Some (Z.of_nat i)) true) as [g1|] eqn:E; [|done].
      cbn [mbind result_bind]. apply IH. by eapply sum_Ok_wf.
  - rewrite decide_False by tauto. cbn [mbind result_bind]. by apply IH.
Qed.

(** The two loops of [__mul__._backward] compute the reduction of the
    spec. *)
Lemma reduce_grad_spec (target g : np.ndarray F) :
  np.wf g → reduce_grad target g = spec_reduce (np.shape target) g.
Proof.
  intros Hwf. unfold reduce_grad, spec_reduce.
  rewrite sum_leading_spec by done. unfold np.ndim at 2.
  destruct (spec_sum_extra _ g) as [g1|] eqn:E; [|done]. cbn [mbind result_bind].
  apply sum_unit_dims_spec. by eapply spec_sum_extra_wf.
Qed.

Lemma spec_sum_extra_shape pre S' g :
  np.shape g = pre ++ S' →
  ∃ g', spec_sum_extra (length pre) g = Ok g' ∧ np.shape g' = S'.
Proof.
  revert g. induction pre as [|p pre IH]; intros g Hsh; cbn [spec_sum_extra length].
  - by exists g.
  - destruct (sum_leading_axis g) as [E Esh].
    { unfold np.ndim. rewrite Hsh. simpl. lia. }
    rewrite E. cbn [mbind result_bind]. apply IH. by rewrite Esh, Hsh.
Qed.

Lemma spec_sum_stretched_shape done dims cur g :
  np.shape g = done ++ cur → Forall2 stretches dims cur →
  ∃ g', spec_sum_stretched (length done) dims g = Ok g'
        ∧ np.shape g' = done ++ dims.
Proof.
  intros Hsh Hst. revert done g Hsh.
  induction Hst as [|d c dims cur Hdc _ IH]; intros done g Hsh;
    cbn [spec_sum_stretched].
  - exists g. by rewrite Hsh.
  - assert (Hi : np.shape g !! length done = Some c).
    { rewrite Hsh. by apply list_lookup_middle. }
    assert (Hnext : ∀ g1, np.shape g1 = done ++ d :: cur →
              ∃ g', spec_sum_stretched (S (length done)) dims g1 = Ok g'
                    ∧ np.shape g' = done ++ d :: dims).
    { intros g1 Hg1. destruct (IH (done ++ [d]) g1) as (g' & E & Esh).
      - by rewrite <- (assoc (++)).
      - rewrite length_app in E. simpl in E. rewrite Nat.add_1_r in E.
        exists g'. split; [done|]. by rewrite Esh, <- (assoc (++)). }
    destruct (decide (d = 1 ∧ np.shape g !! length done ≠ Some 1)) as [[-> Hc]|Hno].
    + rewrite sum_axis by (by eapply lookup_lt_Some). cbn [mbind result_bind].
      apply Hnext. unfold np.reduce_axis. simpl. rewrite Hsh.
      rewrite insert_app_r_alt, Nat.sub_diag by lia. done.
    + cbn [mbind result_bind]. apply Hnext. rewrite Hsh. do 2 f_equal.
      destruct Hdc as [->| ->]; [done|].
      destruct (decide (c = 1)) as [->|Hc]; [done|].
      exfalso. apply Hno. split; [done|]. rewrite Hi. congruence.
Qed.

(** On a gradient of a shape the operand broadcasts to, the reduction
    succeeds and gives an array of the operand's shape. *)
Lemma spec_reduce_shape sh g :
  broadcasts_to sh (np.shape g) →
  ∃ g', spec_reduce sh g = Ok g' ∧ np.shape g' = sh.
Proof.
  intros (pre & S' & Hsh & Hst). unfold spec_reduce.
  assert (Hextra : np.ndim g - length sh = length pre).
  { unfold np.ndim. rewrite Hsh, length_app, (Forall2_length _ _ _ Hst). lia. }
  rewrite Hextra.
  destruct (spec_sum_extra_shape pre S' g Hsh) as (g1 & -> & Hg1).
  cbn [mbind result_bind].
  apply (spec_sum_stretched_shape [] sh S' g1 Hg1 Hst).
Qed.
End reduce_facts.

Section mul_rule.
Context {F : Type} `{Scalar F} `{NumpyCompat}.
Implicit Types (s : State F) (t : Tensor F) (h : list (Tensor F)).

Lemma set_heap_id s : set_heap (heap s) s = s.
Proof. by destruct s. Qed.

Lemma add_into_lookup (x : ref) (d : np.ndarray F) h (r : ref) t :
  h !! r = Some t →
  ∃ t', add_into x d h !! r = Some t'
    ∧ data t' = data t
    ∧ requires_grad t' = requires_grad t
    ∧ (r ≠ x → t' = t)
    ∧ (is_Some (grad t) → is_Some (grad t'))
    ∧ (∀ g', grad t' = Some g' → ∃ g, grad t = Some g ∧ np.shape g' = np.shape g).
Proof.
  intros Hr. unfold add_into.
  destruct (h !! x) as [tx|] eqn:Hx; [|exists t; naive_solver].
  destruct (requires_grad tx) eqn:Hrg; [|exists t; naive_solver].
  destruct (grad tx) as [g|] eqn:Hg; [|exists t; naive_solver].
  destruct (decide (r = x)) as [->|Hne].
  - rewrite list_lookup_insert_eq by (by eapply lookup_lt_Some).
    rewrite Hx in Hr. injection Hr as <-.
    eexists. split; [done|]. simpl. split_and!; try done.
    intros g' [= <-]. by exists g.
  - rewrite list_lookup_insert_ne by done. exists t. naive_solver.
Qed.

(** One of the two [if x.requires_grad:] blocks of [__mul__._backward]:
    [x] is the operand whose gradient is written, [y] the other one. *)
Lemma mul_branch s (x y o : ref) tx ty tout (dOut : np.ndarray F) :
  heap s !! x = Some tx → heap s !! y = Some ty → heap s !! o = Some tout →
  grad tout = Some dOut →
  broadcasts_to (np.shape (data tx)) (np.shape dOut) →
  broadcasts_to (np.shape (data ty)) (np.shape dOut) →
  (∀ g, grad tx = Some g → np.shape g = np.shape (data tx)) →
  (requires_grad tx = true → is_Some (grad tx)) →
  ∃ d, (g ← np.multiply (data ty) dOut; spec_reduce (np.shape (data tx)) g) = Ok d
    ∧ np.shape d = np.shape (data tx)
    ∧ when_requires_grad x (
        to <- load y;; tout <- load o;;
        og <- not_None (grad tout);;
        grad_self <- lift (np.multiply (data to) og);;
        accumulate_reduced x grad_self) s
      = (Ok (), set_heap (add_into x d (heap s)) s).
Proof.
  intros Hx Hy Ho HdOut Hbx Hby Hshape Hpresent.
  rewrite (multiply_into _ _ Hby). cbn [mbind result_bind].
  set (gm := np.build _ _).
  destruct (spec_reduce_shape (np.shape (data tx)) gm Hbx) as (d & Hd & Hdsh).
  exists d. split_and!; [done|done|].
  unfold when_requires_grad. rewrite (bind_Ok _ _ _ _ _ (load_Some _ _ _ Hx)).
  destruct (requires_grad tx) eqn:Hrg; last first.
  { unfold add_into. by rewrite Hx, Hrg, set_heap_id. }
  destruct (Hpresent eq_refl) as [g Hg]. pose proof (Hshape g Hg) as Hgsh.
  rewrite (bind_Ok _ _ _ _ _ (load_Some _ _ _ Hy)).
  rewrite (bind_Ok _ _ _ _ _ (load_Some _ _ _ Ho)), HdOut. simpl.
  erewrite bind_Ok; [|reflexivity].
  rewrite (multiply_into _ _ Hby). fold gm.
  erewrite bind_Ok; [|reflexivity].
  unfold accumulate_reduced.
  rewrite (bind_Ok _ _ _ _ _ (load_Some _ _ _ Hx)), Hg. simpl.
  erewrite bind_Ok; [|reflexivity].
  rewrite reduce_grad_spec by apply build_wf. rewrite Hgsh, Hd.
  erewrite bind_Ok; [|reflexivity].
  unfold np.add. rewrite map2_same_shape by congruence.
  erewrite bind_Ok; [|reflexivity].
  rewrite (update_Some _ _ _ _ Hx). unfold add_into. by rewrite Hx, Hrg, Hg.
Qed.

(** C4. When [out = A * B] and the gradient [dOut] of [out] has the shape
    the two operands broadcast to, the closure of the multiplication adds
    [reduce(B*dOut)] into [A.grad] and [reduce(A*dOut)] into [B.grad] (for
    the operands that require gradients), where [reduce] is the reduction
    of the spec: leading dimensions in excess summed away, then the
    dimensions where the operand has size 1 and the gradient has not summed
    in place.  Each reduced gradient has the shape of its operand, and so
    has each operand's [grad] afterwards. *)
Theorem mul_backward_adds_reduced_products s (a b o : ref) ta tb tout
    (dOut : np.ndarray F) (S : list nat) :
  heap s !! a = Some ta → heap s !! b = Some tb → heap s !! o = Some tout →
  o ≠ a → o ≠ b →
  np.broadcast_shapes (np.shape (data ta)) (np.shape (data tb)) = Some S →
  grad tout = Some dOut → np.shape dOut = S →
  (∀ g, grad ta = Some g → np.shape g = np.shape (data ta)) →
  (∀ g, grad tb = Some g → np.shape g = np.shape (data tb)) →
  (requires_grad ta = true → is_Some (grad ta)) →
  (requires_grad tb = true → is_Some (grad tb)) →
  ∃ dA dB,
    (g ← np.multiply (data tb) dOut; spec_reduce (np.shape (data ta)) g) = Ok dA
    ∧ np.shape dA = np.shape (data ta)
    ∧ (g ← np.multiply (data ta) dOut; spec_reduce (np.shape (data tb)) g) = Ok dB
    ∧ np.shape dB = np.shape (data tb)
    ∧ run_closure (BMul a b o) s
      = (Ok (), set_heap (add_into b dB (add_into a dA (heap s))) s)
    ∧ (∀ x t' g', x = a ∨ x = b →
         add_into b dB (add_into a dA (heap s)) !! x = Some t' →
         grad t' = Some g' → np.shape g' = np.shape (data t')).
Proof.
  intros Ha Hb Ho Hoa Hob HS HdOut HdSh Hsha Hshb Hpa Hpb.
  destruct (broadcast_shapes_inv _ _ _ HS) as [Hba Hbb]. rewrite <- HdSh in Hba, Hbb.
  destruct (mul_branch s a b o ta tb tout dOut Ha Hb Ho HdOut Hba Hbb Hsha Hpa)
    as (dA & HdA & HdAsh & Hrun1).
  set (h1 := add_into a dA (heap s)) in *.
  destruct (add_into_lookup a dA (heap s) a ta Ha)
    as (ta1 & Ha1 & Eda & Erga & _ & Hisa & Hga).
  destruct (add_into_lookup a dA (heap s) b tb Hb)
    as (tb1 & Hb1 & Edb & Ergb & _ & Hisb & Hgb).
  destruct (add_into_lookup a dA (heap s) o tout Ho)
    as (tout1 & Ho1 & _ & _ & Eo & _ & _).
  rewrite (Eo Hoa) in Ho1. fold h1 in Ha1, Hb1, Ho1.
  assert (Hshb1 : ∀ g, grad tb1 = Some g → np.shape g = np.shape (data tb1)).
  { intros g' (g & Hg & ->)%Hgb. rewrite Edb. by apply Hshb. }
  assert (Hsha1 : ∀ g, grad ta1 = Some g → np.shape g = np.shape (data ta1)).
  { intros g' (g & Hg & ->)%Hga. rewrite Eda. by apply Hsha. }
  assert (Hpb1 : requires_grad tb1 = true → is_Some (grad tb1)).
  { rewrite Ergb. intros Hrg. by apply Hisb, Hpb. }
  rewrite <- Eda in Hba. rewrite <- Edb in Hbb.
  destruct (mul_branch (set_heap h1 s) b a o tb1 ta1 tout dOut Hb1 Ha1 Ho1 HdOut
              Hbb Hba Hshb1 Hpb1) as (dB & HdB & HdBsh & Hrun2).
  rewrite Eda, Edb in HdB. rewrite Edb in HdBsh.
  exists dA, dB. split_and!; try done.
  - unfold run_closure. rewrite (bind_Ok _ _ _ _ _ Hrun1). by rewrite Hrun2.
  - intros x t' g' Hx Hx' Hg'.
    assert (∃ t1, h1 !! x = Some t1 ∧ np.shape (data t1) = np.shape (data t1)
                  ∧ (∀ g, grad t1 = Some g → np.shape g = np.shape (data t1)))
      as (t1 & Hx1 & _ & Hsh1).
    { destruct Hx as [-> | ->]; [exists ta1|exists tb1]; done. }
    destruct (add_into_lookup b dB h1 x t1 Hx1) as (t2 & Hx2 & Ed2 & _ & _ & _ & Hg2).
    pose proof (eq_trans (eq_sym Hx2) Hx') as E. injection E as <-.
    destruct (Hg2 g' Hg') as (g & Hg & ->). rewrite Ed2. by apply Hsh1.
Qed.
End mul_rule.

(** ** The closure of [max] when the reduced dimension is dropped *)

(** C5 fails on the code.  With [keepdims=False] and a [dim] that is not
    the leading one, [self.data == out.data] compares arrays whose shapes
    are not aligned.  On a (2,3) tensor reduced along [dim=1] the shapes
    (2,3) and (2,) do not broadcast and [backward] raises, under either
    behaviour of [==]; on a (2,2) tensor they broadcast along the wrong
    dimension and [backward] silently adds a gradient that is zero
    everywhere, where the rule puts 1 on the maximum of every row. *)
Theorem max_backward_dropped_dim_misaligned (compat : NumpyCompat) :
  let run23 := max_dim1_backward [2; 3] [1; 2; 3; 4; 5; 6]%Z fresh_state in
  let run22 := max_dim1_backward [2; 2] [1; 2; 3; 0]%Z fresh_state in
  run23.1 = Raise ValueError
  ∧ (grad <$> heap run23.2 !! 0) = Some (Some (np.mk [2; 3] [0; 0; 0; 0; 0; 0]%Z))
  ∧ max_rule_expected (np.mk [2; 3] [1; 2; 3; 4; 5; 6]%Z) (Some 1%Z)
    = Ok (np.mk [2; 3] [0; 0; 1; 0; 0; 1]%Z)
  ∧ run22.1 = Ok ()
  ∧ (data <$> heap run22.2 !! 1) = Some (np.mk [2] [2; 3]%Z)
  ∧ (grad <$> heap run22.2 !! 0) = Some (Some (np.mk [2; 2] [0; 0; 0; 0]%Z))
  ∧ max_rule_expected (np.mk [2; 2] [1; 2; 3; 0]%Z) (Some 1%Z)
    = Ok (np.mk [2; 2] [0; 1; 1; 0]%Z).
Proof. destruct compat; by vm_compute. Qed.

(** ** Checking a given store *)

Section checkers.
Context {F : Type}.
Implicit Types (h : list (Tensor F)).

Lemma heap_wfb_lookup (v : nat) h (i : nat) (t : Tensor F) (c : ref) :
  heap_wfb v h = true → h !! i = Some t → c ∈ _children t → c < v + i.
Proof.
  revert v i. induction h as [|t0 h IH]; intros v i Hb Hi Hc; [done|].
  simpl in Hb. apply andb_prop in Hb as [Ht0 Hh].
  destruct i as [|i]; simpl in Hi.
  - injection Hi as ->. rewrite forallb_forall in Ht0.
    apply list_elem_of_In, Ht0, Nat.ltb_lt in Hc. lia.
  - pose proof (IH (S v) i Hh Hi Hc). lia.
Qed.

Lemma heap_wfb_sound h : heap_wfb 0 h = true → heap_wf h.
Proof.
  intros Hb v c. unfold consumes, children.
  destruct (h !! v) as [t|] eqn:Hv; [|by intros ?%not_elem_of_nil].
  intros Hc. by apply (heap_wfb_lookup 0 h v t c).
Qed.

Lemma closures_coherentb_sound h : closures_coherentb h = true → closures_coherent h.
Proof.
  unfold closures_coherentb. rewrite forallb_forall. intros Hb o t r Ho Hr.
  apply list_elem_of_lookup_2, list_elem_of_In, Hb in Ho.
  rewrite forallb_forall in Ho.
  apply list_elem_of_In, Ho in Hr. by apply bool_decide_eq_true in Hr.
Qed.
End checkers.

(** ** The operators keep the store well formed *)

Section store_invariants.
Context {F : Type} `{Scalar F} `{NumpyCompat}.
Implicit Types (s : State F) (t : Tensor F) (other : pyobj F).

Lemma store_ok_fresh : store_ok (mkState (F:=F) [] false []).
Proof.
  split.
  - intros v c. unfold consumes, children. simpl.
    destruct v; by intros ?%not_elem_of_nil.
  - intros o t r Ho. simpl in Ho. by destruct o.
Qed.

Lemma store_ok_snoc s t :
  store_ok s →
  (∀ c, c ∈ _children t → c < length (heap s)) →
  (∀ r, r ∈ targets (_backward t) → r ∈ _children t) →
  store_ok (set_heap (heap s ++ [t]) s).
Proof.
  intros [Hwf Hco] Hch Hta. split; simpl.
  - intros v c. unfold consumes, children.
    destruct (decide (v < length (heap s))) as [Hv|Hv].
    + rewrite lookup_app_l by done. apply Hwf.
    + destruct (decide (v = length (heap s))) as [->|Hne].
      * rewrite lookup_snoc. apply Hch.
      * rewrite lookup_ge_None_2 by (rewrite length_app; simpl; lia).
        by intros ?%not_elem_of_nil.
  - intros o t' r Ho. destruct (decide (o < length (heap s))) as [Hv|Hv].
    + rewrite lookup_app_l in Ho by done. by eapply Hco.
    + rewrite lookup_app_r in Ho by lia.
      apply list_lookup_singleton_Some in Ho as [_ <-]. apply Hta.
Qed.

Lemma new_node_store_ok s d ch rg (c : closure F) :
  store_ok s →
  (∀ r, r ∈ ch → r < length (heap s)) →
  (∀ r, r ∈ targets c → r ∈ ch) →
  store_ok (set_heap (heap s ++ [new_node d ch rg c s]) s).
Proof.
  intros Hok Hch Hta. apply store_ok_snoc; [done|..]; simpl.
  - intros r Hr. apply Hch. by apply elem_of_remove_dups.
  - intros r Hr. by apply elem_of_remove_dups, Hta.
Qed.

Lemma wrapped_store_ok other s : store_ok s → store_ok (wrapped other s).
Proof.
  intros Hok. destruct other; [| |done]; simpl;
    (apply new_node_store_ok; [done|by intros ? ?%not_elem_of_nil..]).
Qed.

Lemma mul_Raise_inv self other s e s' :
  __mul__ self other s = (Raise e, s') → s' = wrapped other s.
Proof.
  unfold __mul__. rewrite (bind_Ok _ _ _ _ _ (as_tensor_spec _ _)).
  revert e s'. generalize (wrapped other s), (operand_ref other s).
  intros s1 o e s'. revert s1 e s'. change (atomic (
    ts <- load self;; to <- load o;;
    d <- lift (np.multiply (data ts) (data to));;
    out <- __init__ d [self; o] (requires_grad ts || requires_grad to);;
    update out (set_backward (BMul self o out));; ret out)).
  repeat atomic_step.
Qed.

Lemma mul_store_ok self other s res s' :
  store_ok s → __mul__ self other s = (res, s') → store_ok s'.
Proof.
  intros Hok Hm. pose proof (wrapped_store_ok other s Hok) as Hok1.
  destruct res as [out|e].
  - apply mul_Ok_inv in Hm as (ts & to & d & Hts & Hto & _ & -> & ->).
    apply new_node_store_ok; [done| |done].
    intros r [->|[->|?%not_elem_of_nil]%elem_of_cons]%elem_of_cons;
      [by eapply lookup_lt_Some..|done].
  - apply mul_Raise_inv in Hm. by subst.
Qed.

Lemma pow_store_ok self other s res s' :
  store_ok s → __pow__ self other s = (res, s') → store_ok s'.
Proof.
  intros Hok Hm. destruct res as [out|e].
  - apply pow_Ok_inv in Hm as (c & ts & d & _ & Hts & _ & -> & ->).
    apply new_node_store_ok; [done| |done].
    intros r ->%list_elem_of_singleton. by eapply lookup_lt_Some.
  - by rewrite (eval_atomic (CPow self other) eq_refl _ _ _ Hm).
Qed.

Lemma add_store_ok self other s res s' :
  store_ok s → deeplib_add self other s = (res, s') → store_ok s'.
Proof.
  intros Hok Hm. pose proof (wrapped_store_ok other s Hok) as Hok1.
  destruct res as [out|e].
  - apply add_Ok_inv in Hm as (ts & to & d & Hts & Hto & _ & -> & ->).
    apply new_node_store_ok; [done| |done].
    intros r [->|[->|?%not_elem_of_nil]%elem_of_cons]%elem_of_cons;
      [by eapply lookup_lt_Some..|done].
  - assert (s' = wrapped other s) as ->; [|done].
    revert Hm. unfold deeplib_add. rewrite (bind_Ok _ _ _ _ _ (as_tensor_spec _ _)).
    generalize (wrapped other s), (operand_ref other s). intros s1 o.
    revert s1 e s'. change (atomic (
      ts <- load self;; to <- load o;;
      d <- lift (np.add (data ts) (data to));;
      out <- __init__ d [self; o] (requires_grad ts || requires_grad to);;
      update out (set_backward (BAdd self o out));; ret out)).
    repeat atomic_step.
Qed.

(** X1. The parents relation never forms a cycle: every operator call,
    whatever its outcome, takes a store that is built forward (the parents
    of a node were constructed before it) and whose closures write to
    their node's parents to a store of the same kind; the empty store is
    one. *)
Theorem eval_store_ok (c : call) s res s' :
  store_ok s → eval c s = (res, s') → store_ok s'.
Proof.
  intros Hok He. destruct c as [self other|self other|self|self other|self other
                               |self other|self dim keepdims|self dim keepdims];
    simpl in He.
  - by eapply mul_store_ok.
  - by eapply mul_store_ok.
  - by eapply mul_store_ok.
  - unfold __truediv__ in He.
    apply bind_inv in He as [(o & s1 & Hp & Hm)|(e & Hp & ->)].
    + eapply mul_store_ok; [|done].
      pose proof (py_pow_neg1_Ok_inv _ _ _ _ Hp) as Hinv. destruct other as [x|a|r].
      * by destruct Hinv as [-> _].
      * by destruct Hinv as [-> _].
      * destruct Hinv as (tr & d & Hr & _ & ->).
        apply new_node_store_ok; [done| |done].
        intros r' ->%list_elem_of_singleton. by eapply lookup_lt_Some.
    + destruct other as [x|a|r]; unfold py_pow_neg1 in Hp.
      * done.
      * apply bind_inv in Hp as [(a' & s1 & [-> _]%lift_inv & Hp)|(e' & [-> _]%lift_inv & _)];
          [by injection Hp as _ <-|done].
      * apply bind_inv in Hp as [(o & s1 & Hpow & Hp)|(e' & Hpow & _)].
        -- done.
        -- by eapply pow_store_ok.
  - destruct res as [out|e].
    + apply matmul_Ok_inv in He as (o & ts & to & d & -> & Hts & Hto & _ & -> & ->).
      apply new_node_store_ok; [done| |done].
      intros r [->|[->|?%not_elem_of_nil]%elem_of_cons]%elem_of_cons;
        [by eapply lookup_lt_Some..|done].
    + by rewrite (eval_atomic (CMatmul self other) eq_refl _ _ _ He).
  - by eapply pow_store_ok.
  - destruct res as [out|e].
    + apply max_Ok_inv in He as (ts & d & Hts & _ & -> & ->).
      apply new_node_store_ok; [done| |done].
      intros r ->%list_elem_of_singleton. by eapply lookup_lt_Some.
    + by rewrite (eval_atomic (CMax self dim keepdims) eq_refl _ _ _ He).
  - destruct res as [out|e].
    + apply sum_Ok_inv in He as (ts & d & Hts & _ & -> & ->).
      apply new_node_store_ok; [done| |done].
      intros r ->%list_elem_of_singleton. by eapply lookup_lt_Some.
    + by rewrite (eval_atomic (CSum self dim keepdims) eq_refl _ _ _ He).
Qed.
End store_invariants.

(** ** The theorems on concrete stores *)

Section concrete.
#[local] Existing Instance numpy_current.

Lemma backward_requires_grad_false_witness :
  backward 0 plain_leaf = (Raise RuntimeError, plain_leaf).
Proof.
  apply (backward_requires_grad_false plain_leaf 0 (leaf [2] [1; 2]%Z false));
    reflexivity.
Defined.

Lemma NoGrad_saves_and_restores_witness :
  ∃ s3 s4 : State Z,
    (__enter__ 0;; __enter__ 1;; __exit__ 1) two_guards = (Ok (), s3)
    ∧ NoGrad_enabled s3 = true
    ∧ __exit__ 0 s3 = (Ok (), s4)
    ∧ NoGrad_enabled s4 = false.
Proof.
  destruct (NoGrad_saves_and_restores two_guards 0 1)
    as (s1 & s2 & s3 & s4 & E1 & _ & _ & _ & E2 & _ & _ & _ & E3 & H3 & E4 & H4);
    [simpl; lia|simpl; lia|lia|].
  exists s3, s4. split_and!; [|done|done|done].
  by rewrite (bind_Ok _ _ _ _ _ E1), (bind_Ok _ _ _ _ _ E2).
Defined.


Lemma backward_seeds_ones_witness :
  ∃ (s1 : State Z) (rest : list ref),
    seed 0 two_vectors = (Ok (), s1)
    ∧ (grad <$> heap s1 !! 0) = Some (Some (np.mk [2] [1; 1]%Z))
    ∧ backward 0 two_vectors = run_all (0 :: rest) s1.
Proof.
  destruct (backward_seeds_ones two_vectors 0
              (leaf [2] [1; 2]%Z true))
    as (s1 & rest & Hseed & Hg & _ & _ & _ & _ & Hrun).
  - apply heap_wfb_sound. reflexivity.
  - reflexivity.
  - reflexivity.
  - exists s1, rest. split_and!; [done| |done]. by rewrite Hg.
Defined.


Lemma mul_backward_adds_reduced_products_witness :
  ∃ dA dB : np.ndarray Z,
    np.shape dA = [3; 1] ∧ np.shape dB = [3; 4]
    ∧ run_closure (BMul 0 1 2) product_seeded
      = (Ok (), set_heap (add_into 1 dB (add_into 0 dA (heap product_seeded)))
                         product_seeded).
Proof.
  destruct (mul_backward_adds_reduced_products (H0 := numpy_current)
              product_seeded 0 1 2
              (default (leaf [] [] false) (heap product_seeded !! 0))
              (default (leaf [] [] false) (heap product_seeded !! 1))
              (default (leaf [] [] false) (heap product_seeded !! 2))
              (np.mk [3; 4] [1; 1; 1; 1; 1; 1; 1; 1; 1; 1; 1; 1]%Z) [3; 4])
    as (dA & dB & _ & HA & _ & HB & Hrun & _).
  - reflexivity.
  - reflexivity.
  - reflexivity.
  - lia.
  - lia.
  - reflexivity.
  - reflexivity.
  - reflexivity.
  - intros g [= <-]. reflexivity.
  - intros g [= <-]. reflexivity.
  - intros _. eexists. reflexivity.
  - intros _. eexists. reflexivity.
  - exists dA, dB. split_and!; done.
Defined.

Lemma sum_backward_broadcasts_gradient_witness :
  run_closure (BSum 0 1 (Some 0%Z) false) sum_seeded
  = (Ok (), set_heap (<[0 := set_grad (Some (np.mk [2; 3] [1; 1; 1; 1; 1; 1]%Z))
                            (default (leaf [] [] false) (heap sum_seeded !! 0))]>
                       (heap sum_seeded)) sum_seeded).
Proof.
  rewrite (proj1 sum_backward_broadcasts_gradient Z Z_scalar numpy_current
             sum_seeded 0 1
             (default (leaf [] [] false) (heap sum_seeded !! 0))
             (default (leaf [] [] false) (heap sum_seeded !! 1))
             (np.mk [2; 3] [0; 0; 0; 0; 0; 0]%Z) (np.mk [3] [1; 1; 1]%Z)
             (Some 0%Z) false (Some 0)).
  - reflexivity.
  - intros x. simpl. by destruct x.
  - reflexivity.
  - reflexivity.
  - reflexivity.
  - reflexivity.
  - reflexivity.
  - reflexivity.
  - reflexivity.
  - reflexivity.
  - reflexivity.
Defined.

Lemma eval_store_ok_witness :
  store_ok (eval (CTruediv 0 (PyTensor 1)) two_rows).2.
Proof.
  apply (eval_store_ok (CTruediv 0 (PyTensor 1)) two_rows
           (eval (CTruediv 0 (PyTensor 1)) two_rows).1).
  - split; [apply heap_wfb_sound|apply closures_coherentb_sound]; reflexivity.
  - by destruct (eval (CTruediv 0 (PyTensor 1)) two_rows).
Defined.

Lemma iadd_rebinds_to_a_fresh_node_witness :
  let run := aug_assign_add "x" (PyTensor 1) {["x" := 0; "y" := 0]} two_rows in
  heap run.2 !! 0 = Some (leaf [2] [1; 2]%Z true)
  ∧ ∃ env', run.1 = Ok env' ∧ env' !! "x" = Some 2 ∧ env' !! "y" = Some 0
      ∧ (data <$> heap run.2 !! 2) = Some (np.mk [2] [4; 6]%Z).
Proof.
  destruct (iadd_rebinds_to_a_fresh_node "x" (PyTensor 1)
              {["x" := 0; "y" := 0]} two_rows 0 (leaf [2] [1; 2]%Z true))
    as (_ & Ha & Hok).
  - reflexivity.
  - reflexivity.
  - split; [done|]. eexists. split; [reflexivity|]. by vm_compute.
Defined.
End concrete.

(** ** What [backward] writes *)

Section backward_frame.
Context {F : Type} `{Scalar F} `{NumpyCompat}.
Implicit Types (s : State F) (t : Tensor F).

#[export] Instance only_tracked_grads_refl : Reflexive (only_tracked_grads (F:=F)).
Proof.
  intros s. split; [|done]. intros r. destruct (heap s !! r) as [t|] eqn:E; [|done].
  exists (grad t). by destruct t.
Qed.

#[export] Instance only_tracked_grads_trans : Transitive (only_tracked_grads (F:=F)).
Proof.
  intros s1 s2 s3 (H12 & E12 & G12) (H23 & E23 & G23).
  split; [|split; congruence]. intros r. specialize (H12 r). specialize (H23 r).
  destruct (heap s1 !! r) as [t|]; [|by rewrite H12 in H23].
  destruct H12 as (g & Hg & Hrg). rewrite Hg in H23.
  destruct H23 as (g' & Hg' & Hrg'). exists g'. split; [done|].
  intros Hf. rewrite (Hrg' Hf). simpl. by apply Hrg.
Qed.

Lemma when_requires_grad_tracked (r : ref) (body : M F unit) :
  preserves (only_grads [r]) body →
  preserves only_tracked_grads (when_requires_grad r body).
Proof.
  intros Hbody s res s' Hrun. unfold when_requires_grad in Hrun.
  apply bind_inv in Hrun as [(t & s1 & Hl & Hrun)|(e & Hl & _)]; last first.
  { apply (preserves_load eq) in Hl. by subst. }
  apply load_Ok_inv in Hl as [-> Hr].
  destruct (requires_grad t) eqn:Hrg; [|by injection Hrun as _ <-].
  destruct (Hbody _ _ _ Hrun) as (Hh & ? & ?). split; [|done].
  intros r'. specialize (Hh r').
  destruct (heap s !! r') as [t'|] eqn:Hr'; [|done].
  destruct Hh as (g & Hg & Hws). exists g. split; [done|].
  intros Hf. apply Hws. intros ->%list_elem_of_singleton. congruence.
Qed.
End backward_frame.

Ltac tracked_body := repeat preserves_step; apply update_grad_only; set_solver.

Section backward_frame2.
Context {F : Type} `{Scalar F} `{NumpyCompat}.
Implicit Types (s : State F) (t : Tensor F).

Lemma run_closure_tracked (c : closure F) :
  preserves only_tracked_grads (run_closure c).
Proof.
  destruct c; cbn [run_closure];
    repeat first
      [ apply when_requires_grad_tracked; unfold accumulate, accumulate_reduced;
        tracked_body
      | apply preserves_ret; apply _
      | apply preserves_bind; [apply _| |intros ?] ].
Qed.

Lemma run_all_tracked (nodes : list ref) :
  preserves only_tracked_grads (run_all nodes).
Proof.
  induction nodes as [|x nodes IH]; cbn [run_all].
  - apply preserves_ret; apply _.
  - apply preserves_bind; [apply _|apply preserves_load; apply _|intros t].
    apply preserves_bind; [apply _|apply run_closure_tracked|by intros _].
Qed.
End backward_frame2.

Section backward_frame3.
Context {F : Type} `{Scalar F} `{NumpyCompat}.
Implicit Types (s : State F) (t : Tensor F).

Lemma set_grad_tracked s r t g :
  heap s !! r = Some t → requires_grad t = true →
  only_tracked_grads s (set_heap (<[r := set_grad g t]> (heap s)) s).
Proof.
  intros Hr Hrg. split; [|done]. intros r'. cbn [heap set_heap].
  destruct (decide (r = r')) as [<-|Hne].
  - rewrite Hr. exists g. split; [|congruence].
    apply list_lookup_insert_eq. by eapply lookup_lt_Some.
  - rewrite list_lookup_insert_ne by done.
    destruct (heap s !! r') as [t'|]; [|done]. exists (grad t'). by destruct t'.
Qed.

(** X2. Whatever its outcome, [backward] changes nothing but [grad]
    attributes, and only those of nodes that require gradients and are
    reachable from the node it is called on: no node is added or removed,
    data, parents, closures and flags stay, the no-grad state stays, and
    the gradient of a node outside the graph of [self], or of one that
    does not require gradients, is what it was. *)
Theorem backward_writes_only_tracked_reachable_grads self s res s' :
  store_ok s →
  backward self s = (res, s') →
  only_tracked_grads s s'
  ∧ ∀ r, ¬ reachable (heap s) self r → heap s' !! r = heap s !! r.
Proof.
  intros [Hwf Hco] Hrun.
  destruct (heap s !! self) as [t|] eqn:Ht; last first.
  { unfold backward, bind, load in Hrun. rewrite Ht in Hrun.
    injection Hrun as <- <-. by split. }
  destruct (requires_grad t) eqn:Hrg; last first.
  { unfold backward in Hrun.
    rewrite (bind_Ok _ _ _ _ _ (load_Some _ _ _ Ht)), Hrg in Hrun.
    injection Hrun as <- <-. by split. }
  destruct (backward_schedule s self t Hwf Ht Hrg)
    as (topo & s1 & Hseed & Hs1 & Hbw & _ & Hreach & _ & _).
  rewrite Hbw in Hrun.
  rewrite (seed_spec _ _ _ Ht) in Hseed. injection Hseed as <-.
  split.
  - transitivity (set_heap (<[self := set_grad (Some (np.ones_like (data t))) t]> (heap s)) s).
    + by apply set_grad_tracked.
    + by eapply run_all_tracked.
  - intros r Hr.
    rewrite (run_all_untargeted _ r _ _ _ Hrun).
    + cbn [heap set_heap]. apply list_lookup_insert_ne.
      intros <-. apply Hr. constructor.
    + intros x tx Hx%elem_of_reverse%Hreach Htx Hin. apply Hr.
      eapply reach_child; [done|]. unfold consumes, children.
      cbn [heap set_heap] in Htx.
      destruct (decide (self = x)) as [<-|Hne].
      * rewrite list_lookup_insert_eq in Htx by (by eapply lookup_lt_Some).
        injection Htx as <-. rewrite Ht. by eapply (Hco self t).
      * rewrite list_lookup_insert_ne in Htx by done. rewrite Htx.
        by eapply Hco.
Qed.
End backward_frame3.

(** ** Nodes built while tracking is off *)

Section no_grad_block.
Context {F : Type} `{Scalar F} `{NumpyCompat}.
Implicit Types (s : State F) (t : Tensor F) (other : pyobj F).

#[export] Instance builds_untracked_refl : Reflexive (builds_untracked (F:=F)).
Proof.
  intros s _. split; [done|]. intros r t Hr Ht.
  apply lookup_lt_Some in Ht. lia.
Qed.

#[export] Instance builds_untracked_trans : Transitive (builds_untracked (F:=F)).
Proof.
  intros s1 s2 s3 H12 H23 Hen. destruct (H12 Hen) as [E12 N12].
  assert (Hen2 : NoGrad_enabled s2 = true) by (destruct E12 as (_ & -> & _); done).
  destruct (H23 Hen2) as [E23 N23]. split; [by etrans|].
  intros r t Hr Ht. destruct (decide (length (heap s2) ≤ r)) as [Hr2|Hr2].
  - by eapply N23.
  - destruct (lookup_lt_is_Some_2 (heap s2) r) as [t2 Ht2]; [lia|].
    pose proof (extends_lookup _ _ _ _ E23 Ht2) as Ht3.
    rewrite Ht in Ht3. injection Ht3 as ->. by eapply N12.
Qed.

Lemma builds_untracked_snoc s d ch rg c :
  builds_untracked s (set_heap (heap s ++ [new_node d ch rg c s]) s).
Proof.
  intros Hen. split; [apply extends_snoc|]. intros r t Hr Ht. cbn [heap set_heap] in Ht.
  rewrite lookup_app_r in Ht by done.
  apply list_lookup_singleton_Some in Ht as [_ <-].
  unfold new_node. rewrite Hen. simpl. by rewrite andb_false_r.
Qed.

Lemma construct_untracked d ch rg (clo : ref → closure F) :
  preserves builds_untracked
    (out <- __init__ d ch rg;; update out (set_backward (clo out));; ret out).
Proof.
  intros s res s'. rewrite construct_spec. intros [= <- <-].
  apply builds_untracked_snoc.
Qed.

Lemma as_tensor_untracked other : preserves builds_untracked (as_tensor other).
Proof.
  intros s res s'. rewrite as_tensor_spec. intros [= <- <-].
  destruct other; [apply builds_untracked_snoc..|done].
Qed.

(** [with no_grad(): body], for a body that leaves the guard alone: the
    body runs with the switch set, its result or its exception is the one
    of the statement, and the switch is put back. *)
Lemma with_no_grad_spec {A} (body : M F A) s res sb :
  body (entered s) = (res, sb) →
  guards sb !! length (guards s) = Some (mkNoGrad (Some (NoGrad_enabled s))) →
  with_no_grad body s = (res, mkState (heap sb) (NoGrad_enabled s) (guards sb)).
Proof.
  intros Hbody Hg. unfold with_no_grad.
  rewrite (bind_Ok no_grad _ s (length (guards s))
             (mkState (heap s) (NoGrad_enabled s) (guards s ++ [mkNoGrad None])))
    by done.
  erewrite bind_Ok; last first.
  { apply enter_spec. simpl. rewrite length_app. simpl. lia. }
  cbn [heap NoGrad_enabled guards]. rewrite insert_snoc.
  change (mkState (heap s) true (guards s ++ [mkNoGrad (Some (NoGrad_enabled s))]))
    with (entered s).
  rewrite Hbody. destruct res as [a|e].
  - erewrite bind_Ok; [done|]. by apply exit_spec.
  - erewrite bind_Ok; [done|]. by apply exit_spec.
Qed.
End no_grad_block.

Ltac untracked_step :=
  first [ apply construct_untracked | apply as_tensor_untracked | preserves_step ].

Section no_grad_block2.
Context {F : Type} `{Scalar F} `{NumpyCompat}.
Implicit Types (s : State F) (t : Tensor F) (other : pyobj F).

Lemma mul_untracked self other : preserves builds_untracked (__mul__ self other).
Proof. unfold __mul__. repeat untracked_step. Qed.

Lemma pow_untracked self other : preserves builds_untracked (__pow__ self other).
Proof. unfold __pow__. repeat untracked_step. Qed.

Lemma eval_untracked (c : call) : preserves builds_untracked (eval c).
Proof.
  destruct c; simpl;
    unfold __rmul__, __neg__, __truediv__, py_pow_neg1, __matmul__, max, sum;
    repeat first [ apply mul_untracked | apply pow_untracked | untracked_step ].
Qed.

(** X3. An operator call inside [with no_grad():], whatever its outcome:
    the statement ends as the call ends (its result or its exception),
    [NoGrad._enabled] is back at the value it had before the block, every
    node that existed is unchanged, and every node the call built,
    intermediate ones included, has [requires_grad = False] and no
    gradient, whatever its operands require. *)
Theorem no_grad_block_builds_untracked_nodes (c : call) (s : State F) :
  let run := with_no_grad (eval c) s in
  run.1 = (eval c (entered s)).1
  ∧ NoGrad_enabled run.2 = NoGrad_enabled s
  ∧ heap run.2 = heap (eval c (entered s)).2
  ∧ (∀ r t, heap s !! r = Some t → heap run.2 !! r = Some t)
  ∧ (∀ r t, length (heap s) ≤ r → heap run.2 !! r = Some t →
       requires_grad t = false ∧ grad t = None).
Proof.
  destruct (eval c (entered s)) as [res sb] eqn:E.
  pose proof (eval_extends c _ _ _ E) as Hext.
  destruct (eval_untracked c _ _ _ E eq_refl) as [_ Hnew].
  cbn zeta. rewrite (with_no_grad_spec _ s res sb E); last first.
  { destruct Hext as (_ & _ & ->). apply lookup_snoc. }
  cbn [fst snd heap NoGrad_enabled]. split_and!; [done..| |done].
  intros r t Hr. by apply (extends_lookup (entered s) sb).
Qed.
End no_grad_block2.

(** ** Power *)

Section pow_rule.
Context {F : Type} `{Scalar F} `{NumpyCompat}.
Implicit Types (s : State F) (t : Tensor F).



End pow_rule.

(** ** Maximum, where the shapes align *)

Section max_rule.
Context {F : Type} `{Scalar F} `{NumpyCompat}.
Implicit Types (s : State F) (t : Tensor F).

(** A reduction that keeps its dimensions, or that reduces every
    dimension, leaves a shape that broadcasts against the operand's, each
    element being read at its reduced position. *)
Lemma aligned_reduction (k : option nat) (keepdims : bool) (sh : list nat) :
  keepdims = true ∨ k = None →
  np.broadcast_shapes sh (reduced_shape k keepdims sh) = Some sh
  ∧ np.broadcast_shapes (reduced_shape k keepdims sh) sh = Some sh
  ∧ ∀ idx, np.in_bounds sh idx →
      np.bindex (reduced_shape k keepdims sh) idx = reduced_index k keepdims idx.
Proof.
  intros Hal. destruct k as [k|], keepdims; cbn [reduced_shape reduced_index];
    try (by destruct Hal).
  - split_and!.
    + apply broadcast_shapes_stretch_r0, stretches_insert_1.
    + apply broadcast_shapes_stretch0, stretches_insert_1.
    + intros idx Hb. by apply bindex_insert_1.
  - split_and!.
    + apply broadcast_shapes_stretch_r0, stretches_replicate_1.
    + apply broadcast_shapes_stretch0, stretches_replicate_1.
    + intros idx Hb. rewrite <- (in_bounds_length _ _ Hb). apply bindex_replicate_1.
  - split_and!.
    + apply broadcast_shapes_nil_r.
    + rewrite <- (app_nil_r sh) at 1 2. apply (broadcast_shapes_stretch [] sh []).
      constructor.
    + done.
Qed.

(** X6. The closure of [out = a.max(dim, keepdims)] where the result is
    aligned with the operand ([keepdims=True], or [dim=None]), [a] requires
    gradients and the gradients have the shapes of their data: it succeeds
    and adds to [a.grad], at every element, [out.grad] of the position the
    element was reduced into where the element equals the maximum there,
    and nothing elsewhere.  Every element equal to the maximum receives
    the gradient, ties included. *)
Theorem max_backward_rule_aligned s (a o : ref) ta tout (g dOut : np.ndarray F)
    (k : option nat) (keepdims : bool) :
  heap s !! a = Some ta → heap s !! o = Some tout →
  requires_grad ta = true →
  grad ta = Some g → np.shape g = np.shape (data ta) →
  keepdims = true ∨ k = None →
  np.shape (data tout) = reduced_shape k keepdims (np.shape (data ta)) →
  grad tout = Some dOut → np.shape dOut = np.shape (data tout) →
  run_closure (BMax a o) s
  = (Ok (), set_heap (<[a := set_grad (Some (np.build (np.shape (data ta))
        (λ idx, sadd (np.get g idx)
           (smul (np.get dOut (reduced_index k keepdims idx))
                 (of_bool (seqb (np.get (data ta) idx)
                                (np.get (data tout) (reduced_index k keepdims idx)))))))) ta]>
        (heap s)) s).
Proof.
  intros Ha Ho Hrg Hg Hgsh Hal Hosh HdOut Hdsh.
  destruct (aligned_reduction k keepdims (np.shape (data ta)) Hal) as (Hb1 & Hb2 & Hidx).
  unfold run_closure, when_requires_grad.
  rewrite (bind_Ok _ _ _ _ _ (load_Some _ _ _ Ha)), Hrg.
  rewrite (bind_Ok _ _ _ _ _ (load_Some _ _ _ Ha)).
  rewrite (bind_Ok _ _ _ _ _ (load_Some _ _ _ Ho)).
  unfold np.equal, np.map2. rewrite Hosh, Hb1.
  erewrite bind_Ok; [|reflexivity]. rewrite HdOut.
  erewrite bind_Ok; [|reflexivity].
  unfold np.multiply, np.map2. cbn [np.shape np.build]. rewrite Hdsh, Hosh, Hb2.
  erewrite bind_Ok; [|reflexivity].
  rewrite (accumulate_spec _ _ _ g _ Ha Hg) by (cbn; congruence).
  rewrite Hgsh. do 5 f_equal. apply build_ext. intros idx Hb.
  rewrite (get_build _ _ _ Hb). f_equal.
  rewrite (Hidx _ Hb), (bindex_id _ _ Hb). f_equal.
  change (np.mk (np.shape (data ta)) ?b) with
    (np.build (np.shape (data ta))
       (λ idx0, of_bool (seqb (np.get (data ta) (np.bindex (np.shape (data ta)) idx0))
                              (np.get (data tout)
                                 (np.bindex (reduced_shape k keepdims (np.shape (data ta)))
                                    idx0))))).
  rewrite (get_build _ _ _ Hb). by rewrite (Hidx _ Hb), (bindex_id _ _ Hb).
Qed.
End max_rule.

(** ** Concrete runs of the further properties *)

Section concrete_further.
#[local] Existing Instance numpy_current.

Lemma backward_writes_only_tracked_reachable_grads_witness :
  only_tracked_grads diamond (backward 3 diamond).2
  ∧ ∀ r, ¬ reachable (heap diamond) 3 r →
      heap (backward 3 diamond).2 !! r = heap diamond !! r.
Proof.
  apply (backward_writes_only_tracked_reachable_grads 3 diamond
           (backward 3 diamond).1 (backward 3 diamond).2).
  - split.
    + apply (heap_wfb_sound (heap diamond)). by vm_compute.
    + apply closures_coherentb_sound. by vm_compute.
  - by destruct (backward 3 diamond).
Defined.



Lemma max_backward_rule_aligned_witness :
  (grad <$> heap (run_closure (BMax 0 1) max_keepdims_seeded).2 !! 0)
  = Some (Some (np.mk [2; 2] [0; 1; 1; 1]%Z)).
Proof.
  rewrite (max_backward_rule_aligned max_keepdims_seeded 0 1
             (leaf [2; 2] [1; 5; 7; 7]%Z true)
             (mkTensor (np.mk [2; 1] [5; 7]%Z) [2; 1] true (Some (np.mk [2; 1] [1; 1]%Z))
                (BMax 0 1) [0])
             (np.mk [2; 2] [0; 0; 0; 0]%Z) (np.mk [2; 1] [1; 1]%Z) (Some 1) true);
    first [reflexivity | left; reflexivity].
Defined.
End concrete_further.
